(** * Line-respecting chunking of long messages

    A verification of [split_string_by_lines] from [news_parsing_utils.py]:
    the function that cuts a long message into pieces small enough for one
    chat message each, without ever cutting through a line.

    Python values are modelled as follows.
    - A [str] is the list of its Unicode code points; [len] is the length of
      that list, as a Python [int], that is, an unbounded integer in [Z].
    - [max_length] is a Python [int], so it ranges over all of [Z].
    - A [list] of strings that the code only ever appends to is a Rocq list;
      [chunks.append(x)] is [chunks ++ [x]].
    - The truth value of a string ([if current_chunk:]) is [truthy]. *)

From Stdlib Require Import String Ascii QArith.
From Stdlib Require Import List ZArith NArith Bool Lia.
Import ListNotations.

Local Open Scope Z_scope.

(** ** Strings *)

Definition char : Type := N.
Definition str : Type := list char.

Definition len (s : str) : Z := Z.of_nat (length s).

Definition truthy (s : str) : bool :=
  match s with
  | [] => false
  | _ :: _ => true
  end.

(** ** [str.splitlines(keepends=True)]

    The characters at which Python ends a line of a [str]: line feed, vertical
    tab, form feed, carriage return, the file, group and record separators,
    next line, line separator and paragraph separator.  A carriage return
    immediately followed by a line feed ends the line once, as a pair. *)

Definition LF : char := 10%N.
Definition CR : char := 13%N.

Definition line_boundaries : list char :=
  [10; 11; 12; 13; 28; 29; 30; 133; 8232; 8233]%N.

Definition is_linebreak (c : char) : bool :=
  existsb (N.eqb c) line_boundaries.

(** With [keepends=True] every line keeps its terminator.  A character that
    does not end a line belongs to the same line as what follows it; a
    terminator closes a line of its own text.  The empty string has no line,
    and a terminator at the very end of the string opens no further line. *)
Fixpoint splitlines (s : str) : list str :=
  match s with
  | [] => []
  | c :: rest =>
      if is_linebreak c then
        match rest with
        | d :: rest' =>
            if (N.eqb c CR && N.eqb d LF)%bool
            then [c; d] :: splitlines rest'
            else [c] :: splitlines rest
        | [] => [[c]]
        end
      else
        match splitlines rest with
        | [] => [[c]]
        | line :: lines => (c :: line) :: lines
        end
  end.

(** ** The chunker *)

(** One turn of [for line in lines:], on the pair of the two variables the
    loop updates. *)
Definition loop_body (max_length : Z) (st : list str * str) (line : str)
  : list str * str :=
  let (chunks, current_chunk) := st in
  if len line >=? max_length then
    let chunks :=
      if truthy current_chunk then chunks ++ [current_chunk] else chunks in
    let chunks := chunks ++ [line] in
    (chunks, [])
  else if len current_chunk + len line >=? max_length then
    let chunks :=
      if truthy current_chunk then chunks ++ [current_chunk] else chunks in
    (chunks, line)
  else
    (chunks, current_chunk ++ line).

(** What follows the loop: the last pending chunk is appended when it is not
    empty, and [chunks] is returned. *)
Definition finish (st : list str * str) : list str :=
  let (chunks, current_chunk) := st in
  if truthy current_chunk then chunks ++ [current_chunk] else chunks.

Definition split_string_by_lines (long_string : str) (max_length : Z)
  : list str :=
  let lines := splitlines long_string in
  finish (fold_left (loop_body max_length) lines ([], [])).

(** The outcome of a call.  The body of [split_string_by_lines] has no
    [raise], and every operation it uses ([str.splitlines], [len], [>=], [+]
    on [int] and on [str], [list.append], the truth value of a [str]) is
    defined on all strings and integers: a call on a [str] and an [int]
    returns its list. *)
Inductive error : Type :=
| PreconditionError
| OtherError.

Inductive outcome : Type :=
| Returned (chunks : list str)
| Raised (e : error).

Definition call_split_string_by_lines (long_string : str) (max_length : Z)
  : outcome :=
  Returned (split_string_by_lines long_string max_length).

(** ** The chunker, with the lines of each chunk kept apart

    The same loop, where a chunk is remembered as the list of the lines it was
    built from instead of their concatenation: [groups] for [chunks] and
    [current_group] for [current_chunk].  It takes the branches of
    [loop_body] and is used to state which lines a chunk is made of. *)

Definition group : Type := list str.

Definition nonnil (g : group) : bool :=
  match g with
  | [] => false
  | _ :: _ => true
  end.

Definition loop_body_g (max_length : Z) (st : list group * group) (line : str)
  : list group * group :=
  let (groups, current_group) := st in
  if len line >=? max_length then
    let groups :=
      if nonnil current_group then groups ++ [current_group] else groups in
    let groups := groups ++ [[line]] in
    (groups, [])
  else if len (concat current_group) + len line >=? max_length then
    let groups :=
      if nonnil current_group then groups ++ [current_group] else groups in
    (groups, [line])
  else
    (groups, current_group ++ [line]).

Definition finish_g (st : list group * group) : list group :=
  let (groups, current_group) := st in
  if nonnil current_group then groups ++ [current_group] else groups.

Definition line_groups (lines : list str) (max_length : Z) : list group :=
  finish_g (fold_left (loop_body_g max_length) lines ([], [])).

(** Forgetting where the lines of a chunk begin and end. *)
Definition erase (st : list group * group) : list str * str :=
  (map (@concat char) (fst st), concat (snd st)).

(** ** Vocabulary of the properties *)

(** The text held by a loop state: the chunks so far, then the pending one. *)
Definition contents (st : list str * str) : str :=
  concat (fst st) ++ snd st.

(** The lines held by a state of the loop on groups. *)
Definition lines_of (st : list group * group) : list str :=
  concat (fst st) ++ snd st.

(** A chunk, as the lines it is made of, respects the limit: it is shorter
    than the limit, or it is one single line that is not. *)
Definition size_ok (limit : Z) (g : group) : Prop :=
  len (concat g) < limit \/ exists line, g = [line] /\ limit <= len line.

(** A line that reaches the limit shares its chunk with no other line. *)
Definition isolated (limit : Z) (g : group) : Prop :=
  forall line, In line g -> limit <= len line -> g = [line].

(** Every two neighbours of a list of chunks reach the limit together. *)
Fixpoint adjacent_ge (limit : Z) (chunks : list str) : Prop :=
  match chunks with
  | a :: (b :: _) as rest => limit <= len a + len b /\ adjacent_ge limit rest
  | _ => True
  end.

Fixpoint last_chunk (chunks : list str) : option str :=
  match chunks with
  | [] => None
  | [a] => Some a
  | _ :: rest => last_chunk rest
  end.

(** What the loop keeps true of the chunks: neighbours reach the limit
    together, and so do the last chunk and the pending one. *)
Definition tight (m : Z) (st : list str * str) : Prop :=
  adjacent_ge m (fst st) /\
  forall p, last_chunk (fst st) = Some p -> m <= len p + len (snd st).

(** The number of chunks a pending chunk of length [c] will make: one, unless
    it is empty. *)
Definition pending (c : Z) : nat := if 0 <? c then 1%nat else 0%nat.

(** The number of chunks still to come from a state whose pending chunk has
    length [c], when [lines] remain. *)
Fixpoint chunk_count (limit : Z) (c : Z) (lines : list str) : nat :=
  match lines with
  | [] => pending c
  | line :: rest =>
      if len line >=? limit then
        (pending c + 1 + chunk_count limit 0 rest)%nat
      else if c + len line >=? limit then
        (pending c + chunk_count limit (len line) rest)%nat
      else
        chunk_count limit (c + len line) rest
  end.

(** ** Test data *)

Definition of_codes (l : list nat) : str := map N.of_nat l.

(** ["hello\nworld\n"] *)
Definition hello_world : str :=
  of_codes [104; 101; 108; 108; 111; 10; 119; 111; 114; 108; 100; 10]%nat.

Definition chr_a : char := 97%N.
Definition chr_b : char := 98%N.
Definition chr_x : char := 120%N.

(** ["a" * 2000 + "\n"] and ["b" * 2096 + "\n"] *)
Definition line_a : str := repeat chr_a 2000 ++ [LF].
Definition line_b : str := repeat chr_b 2096 ++ [LF].

(** ["a" * 1999 + "\n"] and ["b" * 2095 + "\n"], 4096 characters together *)
Definition line_a' : str := repeat chr_a 1999 ++ [LF].
Definition line_b' : str := repeat chr_b 2095 ++ [LF].

(** ["hi\n"], ["x" * 4999 + "\n"] (5000 characters), ["bye\n"] *)
Definition short_hi : str := of_codes [104; 105; 10]%nat.
Definition long_x : str := repeat chr_x 4999 ++ [LF].
Definition short_bye : str := of_codes [98; 121; 101; 10]%nat.

(** ["ab\ncd\nef"] *)
Definition three_lines : str := of_codes [97; 98; 10; 99; 100; 10; 101; 102]%nat.

(** ** The rest of [news_parsing_utils.py] and its callers

    What the scripts obtain from outside (HTTP requests, the language model,
    the markup escaper, the extraction services) is given by the fields of an
    environment record, one function per external call, returning a [result]:
    the value, or the exception raised.  An external call whose answer may
    change from one call to the next takes the number of calls made before it.
    An exception is an instance of a subclass of [Exception].  Writes to
    standard output ([print]) are left out, except in
    [process_text_with_gemini], whose handlers evaluate what they print. *)

Definition of_string (s : string) : str :=
  map N_of_ascii (list_ascii_of_string s).

Definition str_eqb (a b : str) : bool :=
  if list_eq_dec N.eq_dec a b then true else false.

Inductive exn : Type :=
| ResourceExhausted
| JSONDecodeError
| ValueError
| KeyError
| RuntimeError (message : str)
| OtherException (name : str).

Inductive result (A : Type) : Type :=
| Ok (value : A)
| Raise (e : exn).

Arguments Ok {A} value.
Arguments Raise {A} e.

(** *** [process_text_with_gemini] *)

(** [except ResourceExhausted] *)
Definition is_resource_exhausted (e : exn) : bool :=
  match e with
  | ResourceExhausted => true
  | _ => false
  end.

(** [except json.JSONDecodeError] *)
Definition is_json_decode_error (e : exn) : bool :=
  match e with
  | JSONDecodeError => true
  | _ => false
  end.

(** Reading a local variable that no assignment has reached. *)
Definition UnboundLocalError : exn :=
  OtherException (of_string "UnboundLocalError").

(** An outcome of a request after which the loop goes round again. *)
Definition rate_limited {J : Type} (o : result J) : Prop :=
  exists e, o = Raise e /\ is_resource_exhausted e = true.

(** What a call has done when it ends: the number of requests made to the
    model, the pauses taken ([time.sleep]), in seconds and in order, and the
    value returned or the exception raised. *)
Record run (J : Type) : Type := {
  calls : nat;
  sleeps : list Z;
  ended : result J
}.

Arguments calls {J} r.
Arguments sleeps {J} r.
Arguments ended {J} r.

(** The [print]s of the function, by what they are given to format. *)
Inductive message : Type :=
| MaxRetriesReached (text_input_50 : str)
| LastError (e : exn)
| RateLimitExceeded (delay_seconds current_try max_retries : Z)
| DecodeFailed
| InputTextWas (text_input_100 : str)
| ModelResponseWas (text : str)
| UnexpectedError (e : exn).

(** The outside of [process_text_with_gemini], for a model object built from
    the constants of the function before the loop:
    [model.generate_content(text_input)] at the request number given, the
    property [response.text], [json.loads], [print] of a formatted string
    (the formatting included), and [time.sleep].  Each may raise. *)
Record gemini (R J : Type) : Type := {
  generate_content : nat -> str -> result R;
  text_of : R -> result str;
  json_loads : str -> result J;
  print : message -> result unit;
  time_sleep : Z -> result unit
}.

Arguments generate_content {R J} g.
Arguments text_of {R J} g.
Arguments json_loads {R J} g.
Arguments print {R J} g.
Arguments time_sleep {R J} g.

(** [a] and then [k], unless [a] raises. *)
Definition and_then {A B : Type} (a : result A) (k : A -> result B) : result B :=
  match a with
  | Ok v => k v
  | Raise e => Raise e
  end.

(** The body of the [try]: the variable [response] afterwards, and the value
    of [result_json] or the exception raised.  [response] keeps the value it
    had when [generate_content] raises. *)
Definition try_body {R J : Type} (g : gemini R J) (made : nat)
           (text_input : str) (response : option R)
  : option R * result J :=
  match generate_content g made text_input with
  | Raise e => (response, Raise e)
  | Ok r => (Some r, and_then (text_of g r) (json_loads g))
  end.

(** The outcome of the [try] body at a request. *)
Definition attempt {R J : Type} (g : gemini R J) (made : nat)
           (text_input : str) : result J :=
  snd (try_body g made text_input None).

(** The handler [except json.JSONDecodeError as e]: three [print]s, the last
    of which reads [response.text], and [raise e]. *)
Definition on_json_decode_error {R J : Type} (g : gemini R J)
           (text_input : str) (response : option R) (e : exn) : result J :=
  and_then (print g DecodeFailed) (fun _ =>
  and_then (print g (InputTextWas (firstn 100 text_input))) (fun _ =>
  match response with
  | None => Raise UnboundLocalError
  | Some r =>
      and_then (text_of g r) (fun t =>
      and_then (print g (ModelResponseWas t)) (fun _ =>
      Raise e))
  end)).

(** The [while current_try <= max_retries:] loop.  [made] is the number of
    requests made before, [slept] the pauses taken, [response] the local
    variable [response], [None] while unbound.  [fuel] bounds the number of
    tests of the loop condition. *)
Fixpoint retry_loop {R J : Type} (g : gemini R J)
         (text_input : str) (max_retries delay_seconds : Z)
         (fuel : nat) (current_try : Z) (made : nat) (slept : list Z)
         (response : option R)
  : option (run J) :=
  match fuel with
  | O => None
  | S fuel' =>
      if current_try <=? max_retries then
        let (response, tried) := try_body g made text_input response in
        match tried with
        | Ok result_json =>
            Some {| calls := S made; sleeps := slept;
                    ended := Ok result_json |}
        | Raise e =>
            if is_resource_exhausted e then
              let current_try := current_try + 1 in
              if current_try >? max_retries then
                Some {| calls := S made; sleeps := slept;
                        ended :=
                          and_then
                            (print g (MaxRetriesReached (firstn 50 text_input)))
                            (fun _ =>
                          and_then (print g (LastError e)) (fun _ =>
                          Raise e)) |}
              else
                match print g (RateLimitExceeded delay_seconds current_try
                                                 max_retries) with
                | Raise e' =>
                    Some {| calls := S made; sleeps := slept;
                            ended := Raise e' |}
                | Ok _ =>
                    match time_sleep g delay_seconds with
                    | Raise e' =>
                        Some {| calls := S made; sleeps := slept;
                                ended := Raise e' |}
                    | Ok _ =>
                        retry_loop g text_input max_retries delay_seconds
                                   fuel' current_try (S made)
                                   (slept ++ [delay_seconds]) response
                    end
                end
            else if is_json_decode_error e then
              Some {| calls := S made; sleeps := slept;
                      ended := on_json_decode_error g text_input response e |}
            else
              Some {| calls := S made; sleeps := slept;
                      ended :=
                        and_then (print g (UnexpectedError e)) (fun _ =>
                        Raise e) |}
        end
      else
        Some {| calls := made; sleeps := slept;
                ended :=
                  Raise (RuntimeError (of_string "Unknown error from AI process")) |}
  end.

Definition process_text_with_gemini {R J : Type} (g : gemini R J)
           (text_input : str) (max_retries delay_seconds : Z)
  : option (run J) :=
  retry_loop g text_input max_retries delay_seconds
             (S (Z.to_nat (max_retries + 1))) 0 0 [] None.

(** How a call whose last request has the number [last] may end: as the
    [try] body of that request did, by its value or its exception; or by the
    exception of a [print]; or by that of [time.sleep], after a request
    refused for the rate limit; or, when [generate_content] itself raised a
    [JSONDecodeError], by [UnboundLocalError] if no request before had given a
    response, or by what reading the text of an earlier response raises. *)
Definition ends_as {R J : Type} (g : gemini R J) (text_input : str)
           (delay_seconds : Z) (last : nat) (o : result J) : Prop :=
  o = attempt g last text_input
  \/ (exists m e, print g m = Raise e /\ o = Raise e)
  \/ (exists e, time_sleep g delay_seconds = Raise e /\ o = Raise e /\
                rate_limited (attempt g last text_input))
  \/ (exists e,
         generate_content g last text_input = Raise e /\
         is_json_decode_error e = true /\
         ((o = Raise UnboundLocalError /\
           forall i, (i <= last)%nat ->
                     exists e', generate_content g i text_input = Raise e')
          \/ (exists r e', text_of g r = Raise e' /\ o = Raise e'))).

(** *** [send_to_telegram] and [send_long_message_to_telegram] *)

(** [class telegram(TypedDict): token: str] *)
Record telegram : Type := { token : str }.

(** The value under ["text"]: the message itself, or the one-element tuple
    that [text = telegramify_markdown.markdownify(message),] makes. *)
Inductive text_value : Type :=
| TextStr (s : str)
| TextTuple1 (s : str).

(** The dictionary [payload]; [reply_markup] is [None] when the key is not
    set. *)
Record payload (M : Type) : Type := {
  chat_id : Z;
  text : text_value;
  parse_mode : str;
  reply_markup : option M
}.

Arguments chat_id {M} p.
Arguments text {M} p.
Arguments parse_mode {M} p.
Arguments reply_markup {M} p.

(** [requests.post(telegram_url, data=payload)] *)
Record request (M : Type) : Type := {
  url : str;
  data : payload M
}.

Arguments url {M} r.
Arguments data {M} r.

(** The outside of [send_to_telegram]: the escaper, the truth value of a
    [reply_markup], and [requests.post(...)] followed by [response.json()], at
    the request number given. *)
Record telegram_api (M J : Type) : Type := {
  markdownify : str -> result str;
  markup_truthy : M -> bool;
  post : nat -> request M -> result J
}.

Arguments markdownify {M J} t.
Arguments markup_truthy {M J} t.
Arguments post {M J} t.

Definition telegram_url (tok : telegram) : str :=
  of_string "https://api.telegram.org/bot" ++ token tok
  ++ of_string "/sendMessage".

(** Returns the requests made and what [send_to_telegram] returns or raises;
    [made] is the number of requests made before the call. *)
Definition send_to_telegram {M J : Type} (api : telegram_api M J) (made : nat)
           (message : str) (chat : Z) (escaped : bool) (tok : telegram)
           (markup : option M)
  : list (request M) * result J :=
  let escaped_text :=
    if negb escaped then
      match markdownify api message with
      | Ok t => Ok (TextTuple1 t)
      | Raise e => Raise e
      end
    else Ok (TextStr message) in
  match escaped_text with
  | Raise e => ([], Raise e)
  | Ok t =>
      let p :=
        {| chat_id := chat; text := t;
           parse_mode := of_string "MarkdownV2";
           reply_markup :=
             match markup with
             | Some m => if markup_truthy api m then Some m else None
             | None => None
             end |} in
      let r := {| url := telegram_url tok; data := p |} in
      ([r], post api made r)
  end.

(** [for m in splitted_msg: send_to_telegram(m, chat_id, token=token)] *)
Fixpoint send_each {M J : Type} (api : telegram_api M J) (made : nat)
         (splitted_msg : list str) (chat : Z) (tok : telegram)
  : list (request M) * result unit :=
  match splitted_msg with
  | [] => ([], Ok tt)
  | m :: rest =>
      let (sent, r) := send_to_telegram api made m chat false tok None in
      match r with
      | Raise e => (sent, Raise e)
      | Ok _ =>
          let (sent', r') :=
            send_each api (made + length sent) rest chat tok in
          (sent ++ sent', r')
      end
  end.

Definition send_long_message_to_telegram {M J : Type} (api : telegram_api M J)
           (message : str) (chat : Z) (tok : telegram)
  : list (request M) * result unit :=
  let splitted_msg := split_string_by_lines message 4096 in
  send_each api 0 splitted_msg chat tok.

(** The request that sends one chunk. *)
Definition sends {M J : Type} (api : telegram_api M J) (chat : Z)
           (tok : telegram) (chunk : str) (r : request M) : Prop :=
  exists t,
    markdownify api chunk = Ok t /\
    r = {| url := telegram_url tok;
           data := {| chat_id := chat; text := TextTuple1 t;
                      parse_mode := of_string "MarkdownV2";
                      reply_markup := None |} |}.

(** *** [get_content_from_link] *)

(** [requests.get]'s response: [status_code] and [text]. *)
Record http_response : Type := {
  status_code : Z;
  response_text : option str
}.

(** A field of a dictionary that may be missing, hold [None], or a string. *)
Inductive field : Type :=
| Missing
| IsNone
| IsStr (s : str).

(** Tavily's answer: the list under ["results"] ([None] when the key is
    missing or holds [None]), each item with its ["raw_content"]. *)
Record tavily_response : Type := {
  results : option (list field)
}.

(** The outside of [get_content_from_link]: [requests.get(url, ...)],
    [trafilatura.extract(html, ...)], and the making of the Tavily client
    followed by [tavily_client.extract(urls=url, ...)]. *)
Record web : Type := {
  requests_get : str -> result http_response;
  trafilatura_extract : str -> result (option str);
  tavily_extract : str -> result tavily_response
}.

Definition _get_content_from_link_tabily (w : web) (link : str) : option str :=
  match tavily_extract w link with
  | Raise _ => None
  | Ok response =>
      match results response with
      | None => None
      | Some [] => None
      | Some (first :: _) =>
          match first with
          | Missing => None
          | IsNone => None
          | IsStr raw_content => Some raw_content
          end
      end
  end.

Definition _get_content_from_link_trafilatura (w : web) (link : str)
  : option str :=
  match requests_get w link with
  | Raise _ => None
  | Ok response =>
      if negb (status_code response =? 200) then None
      else
        match response_text response with
        | None => None
        | Some downloaded_html =>
            match trafilatura_extract w downloaded_html with
            | Raise _ => None
            | Ok None => None
            | Ok (Some full_text) =>
                if negb (truthy full_text) then None else Some full_text
            end
        end
  end.

(** The function ends without a [return] when the test fails, so it returns
    [None] then. *)
Definition get_content_from_link (w : web) (link : str) : option str :=
  let content := _get_content_from_link_trafilatura w link in
  let test :=
    match content with
    | None => true
    | Some c => negb (truthy c) || (len c <? 100)
    end in
  if test then _get_content_from_link_tabily w link else None.

(** *** [tech_blog_summarize.main]: where a description comes from *)

Inductive pyvalue : Type :=
| PyBool (b : bool)
| PyStr (s : str).

Definition py_truthy (v : pyvalue) : bool :=
  match v with
  | PyBool b => b
  | PyStr s => truthy s
  end.

(** [a or b] *)
Definition py_or (a b : pyvalue) : pyvalue :=
  if py_truthy a then a else b.

Inductive description_source : Type :=
| EntryContentValue
| ContentFromLink
| EntryDescription.

(** The [if]/[elif]/[else] that sets [description]. *)
Definition description_of (blog_name : str) : description_source :=
  if str_eqb blog_name (of_string "Netflix Tech Blog") then EntryContentValue
  else if py_truthy
            (py_or (PyBool (str_eqb blog_name (of_string "Google Research Blog")))
                   (PyStr (of_string "Google DeepMind Blog")))
       then ContentFromLink
       else EntryDescription.

(** *** [get_weather.py]: the grades of the pollutants *)

(** A Python [float], or an [int]: a rational when finite.  A comparison of a
    number with an integer is exact in Python, and any comparison with [nan]
    is false. *)
Inductive number : Type :=
| Finite (q : Q)
| PosInf
| NegInf
| NaN.

(** [value < n] *)
Definition lt_int (value : number) (n : Z) : bool :=
  match value with
  | Finite q => negb (Qle_bool (inject_Z n) q)
  | PosInf => false
  | NegInf => true
  | NaN => false
  end.

Definition POLLUTANT_LEVEL_MAP : list (Z * str) :=
  [ (1, [51339; 51020]%N);
    (2, [48372; 53685]%N);
    (3, [44221; 44228]%N);
    (4, [45208; 49256]%N);
    (5, [47588; 50864; 32; 45208; 49256]%N) ].

(** [d[key]] *)
Fixpoint getitem (d : list (Z * str)) (key : Z) : result str :=
  match d with
  | [] => Raise KeyError
  | (k, v) :: rest => if k =? key then Ok v else getitem rest key
  end.

Definition get_pm2_5_level (value : number) : result str :=
  if lt_int value 10 then getitem POLLUTANT_LEVEL_MAP 1
  else if lt_int value 25 then getitem POLLUTANT_LEVEL_MAP 2
  else if lt_int value 50 then getitem POLLUTANT_LEVEL_MAP 3
  else if lt_int value 75 then getitem POLLUTANT_LEVEL_MAP 4
  else getitem POLLUTANT_LEVEL_MAP 5.

Definition get_pm10_level (value : number) : result str :=
  if lt_int value 20 then getitem POLLUTANT_LEVEL_MAP 1
  else if lt_int value 50 then getitem POLLUTANT_LEVEL_MAP 2
  else if lt_int value 100 then getitem POLLUTANT_LEVEL_MAP 3
  else if lt_int value 200 then getitem POLLUTANT_LEVEL_MAP 4
  else getitem POLLUTANT_LEVEL_MAP 5.

Definition get_so2_level (value : number) : result str :=
  if lt_int value 20 then getitem POLLUTANT_LEVEL_MAP 1
  else if lt_int value 80 then getitem POLLUTANT_LEVEL_MAP 2
  else if lt_int value 250 then getitem POLLUTANT_LEVEL_MAP 3
  else if lt_int value 350 then getitem POLLUTANT_LEVEL_MAP 4
  else getitem POLLUTANT_LEVEL_MAP 5.

Definition get_no2_level (value : number) : result str :=
  if lt_int value 40 then getitem POLLUTANT_LEVEL_MAP 1
  else if lt_int value 70 then getitem POLLUTANT_LEVEL_MAP 2
  else if lt_int value 150 then getitem POLLUTANT_LEVEL_MAP 3
  else if lt_int value 200 then getitem POLLUTANT_LEVEL_MAP 4
  else getitem POLLUTANT_LEVEL_MAP 5.

Definition get_o3_level (value : number) : result str :=
  if lt_int value 60 then getitem POLLUTANT_LEVEL_MAP 1
  else if lt_int value 100 then getitem POLLUTANT_LEVEL_MAP 2
  else if lt_int value 140 then getitem POLLUTANT_LEVEL_MAP 3
  else if lt_int value 180 then getitem POLLUTANT_LEVEL_MAP 4
  else getitem POLLUTANT_LEVEL_MAP 5.

Definition get_co_level (value : number) : result str :=
  if lt_int value 4400 then getitem POLLUTANT_LEVEL_MAP 1
  else if lt_int value 9400 then getitem POLLUTANT_LEVEL_MAP 2
  else if lt_int value 12400 then getitem POLLUTANT_LEVEL_MAP 3
  else if lt_int value 15400 then getitem POLLUTANT_LEVEL_MAP 4
  else getitem POLLUTANT_LEVEL_MAP 5.

Definition level_functions : list (number -> result str) :=
  [get_pm2_5_level; get_pm10_level; get_so2_level; get_no2_level;
   get_o3_level; get_co_level].

(** The grade with four thresholds, as the six functions compute it. *)
Definition grade (t1 t2 t3 t4 : Z) (value : number) : Z :=
  if lt_int value t1 then 1
  else if lt_int value t2 then 2
  else if lt_int value t3 then 3
  else if lt_int value t4 then 4
  else 5.

(** [value <= other], for two numbers that are not [nan]. *)
Definition number_le (value other : number) : Prop :=
  match value, other with
  | NaN, _ | _, NaN => False
  | NegInf, _ => True
  | _, PosInf => True
  | Finite p, Finite q => (p <= q)%Q
  | _, _ => False
  end.

(** Each of the six functions looks up the grade of its four thresholds. *)
Definition graded_by (f : number -> result str) (t1 t2 t3 t4 : Z) : Prop :=
  0 < t1 /\
  forall v, f v = getitem POLLUTANT_LEVEL_MAP (grade t1 t2 t3 t4 v).

(** *** [split_string_by_lines] as Python runs it

    Python checks no annotation: the function may be called with any two
    values, and what it does to its arguments may raise.  A running function
    may also read and change the variables of its module and do input and
    output.  A run takes the global variables and gives the value returned or
    the exception raised, the global variables afterwards, and the input and
    output done, in order.  The values are [None], a [bool], an [int] or a
    [str]. *)

Inductive value : Type :=
| VNone
| VBool (b : bool)
| VInt (z : Z)
| VStr (s : str).

Inductive event : Type :=
| Written (text : str)
| Requested (address : str).

Definition globals : Type := list (str * value).

Definition Py (A : Type) : Type :=
  globals -> result A * globals * list event.

Definition ret {A : Type} (a : A) : Py A :=
  fun w => (Ok a, w, []).

Definition bind {A B : Type} (m : Py A) (k : A -> Py B) : Py B :=
  fun w =>
    match m w with
    | (Ok a, w', done) =>
        match k a w' with
        | (r, w'', done') => (r, w'', done ++ done')
        end
    | (Raise e, w', done) => (Raise e, w', done)
    end.

(** A computation on values: it raises or gives its value, and does nothing
    else. *)
Definition lift {A : Type} (r : result A) : Py A :=
  fun w => (r, w, []).

Definition AttributeError : exn := OtherException (of_string "AttributeError").
Definition TypeError : exn := OtherException (of_string "TypeError").

(** [v.splitlines(keepends=True)]: only a [str] has the method. *)
Definition splitlines_keepends (v : value) : result (list str) :=
  match v with
  | VStr s => Ok (splitlines s)
  | _ => Raise AttributeError
  end.

(** [a >= v] for an [int] [a]: defined when [v] is an [int] or a [bool], which
    counts as 0 or 1. *)
Definition ge_value (a : Z) (v : value) : result bool :=
  match v with
  | VInt z => Ok (a >=? z)
  | VBool b => Ok (a >=? (if b then 1 else 0))
  | VNone | VStr _ => Raise TypeError
  end.

(** One turn of the loop; the lines are strings, as [splitlines] made
    them. *)
Definition loop_body_py (max_length : value) (st : list str * str) (line : str)
  : Py (list str * str) :=
  let (chunks, current_chunk) := st in
  bind (lift (ge_value (len line) max_length)) (fun too_long =>
  if too_long then
    let chunks :=
      if truthy current_chunk then chunks ++ [current_chunk] else chunks in
    let chunks := chunks ++ [line] in
    ret (chunks, [])
  else
    bind (lift (ge_value (len current_chunk + len line) max_length)) (fun full =>
    if full then
      let chunks :=
        if truthy current_chunk then chunks ++ [current_chunk] else chunks in
      ret (chunks, line)
    else
      ret (chunks, current_chunk ++ line))).

(** [for line in lines:] *)
Fixpoint for_each {S : Type} (body : S -> str -> Py S) (lines : list str)
         (st : S) : Py S :=
  match lines with
  | [] => ret st
  | line :: rest => bind (body st line) (for_each body rest)
  end.

Definition split_string_by_lines_py (long_string max_length : value)
  : Py (list str) :=
  bind (lift (splitlines_keepends long_string)) (fun lines =>
  bind (for_each (loop_body_py max_length) lines ([], [])) (fun st =>
  ret (finish st))).

(** *** Test data for the rest of the code *)

(** Two requests refused for the rate limit, then an answer; every response
    is its own text and its own value. *)
Definition answers_third : gemini str str :=
  {| generate_content := fun n text_input =>
       match n with
       | 0%nat | 1%nat => Raise ResourceExhausted
       | _ => Ok text_input
       end;
     text_of := fun r => Ok r;
     json_loads := fun t => Ok t;
     print := fun _ => Ok tt;
     time_sleep := fun _ => Ok tt |}.

(** The first request raises a [JSONDecodeError] out of
    [generate_content]. *)
Definition decode_error_first : gemini str str :=
  {| generate_content := fun _ _ => Raise JSONDecodeError;
     text_of := fun r => Ok r;
     json_loads := fun t => Ok t;
     print := fun _ => Ok tt;
     time_sleep := fun _ => Ok tt |}.

(** Every request is refused for the rate limit, and [time.sleep] raises. *)
Definition sleep_overflows : gemini str str :=
  {| generate_content := fun _ _ => Raise ResourceExhausted;
     text_of := fun r => Ok r;
     json_loads := fun t => Ok t;
     print := fun _ => Ok tt;
     time_sleep := fun _ => Raise (OtherException (of_string "OverflowError")) |}.

(** An escaper that changes nothing and a Telegram that accepts all. *)
Definition accepting_api : telegram_api unit Z :=
  {| markdownify := fun m => Ok m;
     markup_truthy := fun _ => true;
     post := fun _ _ => Ok 0 |}.

(** A web where the page of every link is 100 times ["x"]; Tavily fails. *)
Definition page_web : web :=
  {| requests_get := fun _ =>
       Ok {| status_code := 200; response_text := Some (repeat chr_x 100) |};
     trafilatura_extract := fun html => Ok (Some html);
     tavily_extract := fun _ => Raise (OtherException (of_string "HTTPError")) |}.

(** A web where every request fails; Tavily answers with one result. *)
Definition tavily_web : web :=
  {| requests_get := fun _ => Raise (OtherException (of_string "ConnectionError"));
     trafilatura_extract := fun _ => Ok None;
     tavily_extract := fun _ => Ok {| results := Some [IsStr three_lines] |} |}.

(** ** Lines *)

Definition nonempty (s : str) : Prop := s <> [].

Lemma len_nonneg (s : str) : 0 <= len s.
Proof. unfold len; lia. Qed.

Lemma len_app (s t : str) : len (s ++ t) = len s + len t.
Proof. unfold len; rewrite length_app; lia. Qed.

Lemma len_nil : len [] = 0.
Proof. reflexivity. Qed.

Lemma truthy_true (s : str) : truthy s = true <-> nonempty s.
Proof. destruct s; simpl; split; unfold nonempty; congruence. Qed.

Lemma truthy_false_iff (s : str) : truthy s = false <-> s = [].
Proof. destruct s; simpl; split; congruence. Qed.

(** Induction two characters at a time, as [splitlines] consumes a carriage
    return and line feed together. *)
Lemma str_pair_ind (P : str -> Prop) :
  P [] ->
  (forall c, P [c]) ->
  (forall c d s, P s -> P (d :: s) -> P (c :: d :: s)) ->
  forall s, P s.
Proof.
  intros Hnil Hone Hstep.
  assert (H : forall s, P s /\ forall c, P (c :: s)).
  { induction s as [|d s [IH1 IH2]].
    - split; [exact Hnil | exact Hone].
    - split; [apply IH2 | intro c; apply Hstep; [exact IH1 | apply IH2]]. }
  intro s; apply H.
Qed.

Lemma splitlines_cons (c : char) (rest : str) :
  splitlines (c :: rest) =
  if is_linebreak c then
    match rest with
    | d :: rest' =>
        if (N.eqb c CR && N.eqb d LF)%bool
        then [c; d] :: splitlines rest'
        else [c] :: splitlines rest
    | [] => [[c]]
    end
  else
    match splitlines rest with
    | [] => [[c]]
    | line :: lines => (c :: line) :: lines
    end.
Proof. reflexivity. Qed.

(** The lines, put back together, are the string. *)
Lemma concat_splitlines (s : str) : concat (splitlines s) = s.
Proof.
  induction s as [|c|c d s IH1 IH2] using str_pair_ind.
  - reflexivity.
  - simpl. destruct (is_linebreak c); reflexivity.
  - rewrite splitlines_cons.
    destruct (is_linebreak c).
    + destruct (N.eqb c CR && N.eqb d LF)%bool; cbn [concat app]; congruence.
    + destruct (splitlines (d :: s)) as [|line lines]; cbn [concat app] in *.
      * congruence.
      * rewrite IH2. reflexivity.
Qed.

(** No line is empty. *)
Lemma splitlines_nonempty (s : str) : Forall nonempty (splitlines s).
Proof.
  induction s as [|c|c d s IH1 IH2] using str_pair_ind.
  - constructor.
  - simpl. destruct (is_linebreak c); repeat constructor; discriminate.
  - rewrite splitlines_cons.
    destruct (is_linebreak c).
    + destruct (N.eqb c CR && N.eqb d LF)%bool;
        constructor; try discriminate; assumption.
    + destruct (splitlines (d :: s)) as [|line lines].
      * repeat constructor; discriminate.
      * inversion IH2; subst. constructor; [discriminate | assumption].
Qed.

Example splitlines_hello_world :
  splitlines hello_world =
  [of_codes [104; 101; 108; 108; 111; 10]%nat;
   of_codes [119; 111; 114; 108; 100; 10]%nat].
Proof. reflexivity. Qed.

(** ["a\r\nb\rc\n\nd"] has the lines ["a\r\n"], ["b\r"], ["c\n"], ["\n"],
    ["d"]. *)
Example splitlines_mixed :
  splitlines (of_codes [97; 13; 10; 98; 13; 99; 10; 10; 100]%nat) =
  map of_codes [[97; 13; 10]; [98; 13]; [99; 10]; [10]; [100]]%nat.
Proof. reflexivity. Qed.

(** ** The loop *)

Lemma fold_left_invariant {A B : Type} (f : A -> B -> A)
      (P : A -> Prop) (Q : B -> Prop) :
  (forall a b, P a -> Q b -> P (f a b)) ->
  forall l a, Forall Q l -> P a -> P (fold_left f l a).
Proof.
  intros Hstep l; induction l as [|b l IH]; intros a Hl Ha; simpl.
  - exact Ha.
  - inversion Hl; subst. apply IH; [assumption | apply Hstep; assumption].
Qed.

Lemma Forall_trivial {B : Type} (l : list B) : Forall (fun _ => True) l.
Proof. induction l; constructor; auto. Qed.

Lemma geb_true (a b : Z) : (a >=? b) = true <-> b <= a.
Proof. rewrite Z.geb_leb; apply Z.leb_le. Qed.

Lemma geb_false (a b : Z) : (a >=? b) = false <-> a < b.
Proof. rewrite Z.geb_leb; apply Z.leb_gt. Qed.

(** Case analysis on the two tests of the loop body. *)
Ltac loop_cases line cur limit :=
  let E1 := fresh "Hbig" in
  let E2 := fresh "Hfull" in
  destruct (len line >=? limit) eqn:E1;
  [ apply geb_true in E1
  | apply geb_false in E1;
    destruct (len cur + len line >=? limit) eqn:E2;
    [ apply geb_true in E2 | apply geb_false in E2 ] ].

Lemma loop_body_eq (m : Z) (chunks : list str) (cur line : str) :
  loop_body m (chunks, cur) line =
  if len line >=? m then
    ((if truthy cur then chunks ++ [cur] else chunks) ++ [line], [])
  else if len cur + len line >=? m then
    (if truthy cur then chunks ++ [cur] else chunks, line)
  else
    (chunks, cur ++ line).
Proof. reflexivity. Qed.

Lemma contents_loop_body (m : Z) (st : list str * str) (line : str) :
  contents (loop_body m st line) = contents st ++ line.
Proof.
  destruct st as [chunks cur]; unfold loop_body, contents.
  destruct (len line >=? m); [|destruct (len cur + len line >=? m)];
    destruct cur as [|c cur]; cbn [truthy fst snd];
    rewrite ?concat_app; cbn [concat]; rewrite ?app_nil_r, <- ?app_assoc;
    reflexivity.
Qed.

Lemma contents_fold (m : Z) (lines : list str) (st : list str * str) :
  contents (fold_left (loop_body m) lines st) = contents st ++ concat lines.
Proof.
  revert st; induction lines as [|line lines IH]; intro st; simpl.
  - rewrite app_nil_r; reflexivity.
  - rewrite IH, contents_loop_body, <- app_assoc; reflexivity.
Qed.

Lemma concat_finish (st : list str * str) : concat (finish st) = contents st.
Proof.
  destruct st as [chunks [|c cur]]; unfold finish, contents; cbn [truthy fst snd].
  - rewrite app_nil_r; reflexivity.
  - rewrite concat_app; cbn [concat]; rewrite app_nil_r; reflexivity.
Qed.

Lemma concat_split_string_by_lines (text : str) (m : Z) :
  concat (split_string_by_lines text m) = text.
Proof.
  unfold split_string_by_lines.
  rewrite concat_finish, contents_fold. apply concat_splitlines.
Qed.

(** *** No empty chunk *)

Lemma Forall_snoc {A : Type} (P : A -> Prop) (l : list A) (x : A) :
  Forall P l -> P x -> Forall P (l ++ [x]).
Proof. intros Hl Hx; apply Forall_app; split; [assumption | repeat constructor; assumption]. Qed.

Lemma flush_nonempty (chunks : list str) (cur : str) :
  Forall nonempty chunks ->
  Forall nonempty (if truthy cur then chunks ++ [cur] else chunks).
Proof.
  intro H. destruct (truthy cur) eqn:E; [|exact H].
  apply Forall_snoc; [exact H | apply truthy_true; exact E].
Qed.

Lemma loop_body_nonempty (m : Z) (st : list str * str) (line : str) :
  Forall nonempty (fst st) -> nonempty line ->
  Forall nonempty (fst (loop_body m st line)).
Proof.
  destruct st as [chunks cur]; unfold loop_body; cbn [fst]; intros H Hl.
  destruct (len line >=? m); [|destruct (len cur + len line >=? m)]; cbn [fst].
  - apply Forall_snoc; [apply flush_nonempty; exact H | exact Hl].
  - apply flush_nonempty; exact H.
  - exact H.
Qed.

Lemma split_string_by_lines_nonempty (text : str) (m : Z) :
  Forall nonempty (split_string_by_lines text m).
Proof.
  unfold split_string_by_lines.
  pose proof (fold_left_invariant (loop_body m)
                (fun st => Forall nonempty (fst st)) nonempty
                (loop_body_nonempty m) (splitlines text) ([], [])
                (splitlines_nonempty text) (Forall_nil _)) as H.
  destruct (fold_left (loop_body m) (splitlines text) ([], [])) as [chunks cur].
  apply flush_nonempty; exact H.
Qed.

(** *** The lines of each chunk *)

Lemma truthy_concat (g : group) :
  Forall nonempty g -> truthy (concat g) = nonnil g.
Proof.
  destruct g as [|l g]; [reflexivity|]; intro H; inversion H; subst.
  destruct l; [congruence | reflexivity].
Qed.

Lemma map_concat_snoc (groups : list group) (g : group) :
  map (@concat char) (groups ++ [g]) = map (@concat char) groups ++ [concat g].
Proof. rewrite map_app; reflexivity. Qed.

(** The loop on groups goes the way of the loop on chunks. *)
Lemma erase_loop_body_g (m : Z) (st : list group * group) (line : str) :
  Forall nonempty (snd st) -> nonempty line ->
  erase (loop_body_g m st line) = loop_body m (erase st) line /\
  Forall nonempty (snd (loop_body_g m st line)).
Proof.
  destruct st as [groups g]; unfold erase, loop_body_g, loop_body;
    cbn [fst snd]; intros Hg Hl.
  rewrite (truthy_concat g Hg).
  destruct (len line >=? m); [|destruct (len (concat g) + len line >=? m)];
    destruct (nonnil g); cbn [fst snd];
    rewrite ?map_concat_snoc, ?concat_app; cbn [concat];
    rewrite ?app_nil_r; split; try reflexivity;
    repeat first [apply Forall_snoc | constructor]; assumption.
Qed.

Lemma erase_fold (m : Z) (lines : list str) (st : list group * group) :
  Forall nonempty lines -> Forall nonempty (snd st) ->
  erase (fold_left (loop_body_g m) lines st)
  = fold_left (loop_body m) lines (erase st) /\
  Forall nonempty (snd (fold_left (loop_body_g m) lines st)).
Proof.
  revert st; induction lines as [|line lines IH]; intros st Hl Hg;
    cbn [fold_left].
  - split; [reflexivity | exact Hg].
  - inversion Hl; subst.
    destruct (erase_loop_body_g m st line Hg) as [E Hg']; [assumption|].
    rewrite <- E. apply IH; assumption.
Qed.

Lemma map_concat_finish_g (st : list group * group) :
  Forall nonempty (snd st) ->
  map (@concat char) (finish_g st) = finish (erase st).
Proof.
  destruct st as [groups g]; unfold finish_g, finish, erase; cbn [fst snd].
  intro Hg. rewrite (truthy_concat g Hg).
  destruct (nonnil g); rewrite ?map_concat_snoc; reflexivity.
Qed.

Lemma map_concat_line_groups (text : str) (m : Z) :
  map (@concat char) (line_groups (splitlines text) m)
  = split_string_by_lines text m.
Proof.
  unfold line_groups, split_string_by_lines.
  destruct (erase_fold m (splitlines text) ([], [])
              (splitlines_nonempty text) (Forall_nil _)) as [E Hg].
  rewrite map_concat_finish_g by exact Hg. rewrite E. reflexivity.
Qed.

Lemma lines_of_loop_body_g (m : Z) (st : list group * group) (line : str) :
  lines_of (loop_body_g m st line) = lines_of st ++ [line].
Proof.
  destruct st as [groups g]; unfold loop_body_g, lines_of.
  destruct (len line >=? m); [|destruct (len (concat g) + len line >=? m)];
    destruct g as [|l g]; cbn [nonnil fst snd];
    rewrite ?concat_app; cbn [concat]; rewrite ?app_nil_r, <- ?app_assoc;
    reflexivity.
Qed.

Lemma lines_of_fold (m : Z) (lines : list str) (st : list group * group) :
  lines_of (fold_left (loop_body_g m) lines st) = lines_of st ++ lines.
Proof.
  revert st; induction lines as [|line lines IH]; intro st; simpl.
  - rewrite app_nil_r; reflexivity.
  - rewrite IH, lines_of_loop_body_g, <- app_assoc; reflexivity.
Qed.

Lemma concat_finish_g (st : list group * group) :
  concat (finish_g st) = lines_of st.
Proof.
  destruct st as [groups [|l g]]; unfold finish_g, lines_of; cbn [nonnil fst snd].
  - rewrite app_nil_r; reflexivity.
  - rewrite concat_app; cbn [concat]; rewrite app_nil_r; reflexivity.
Qed.

Lemma concat_line_groups (lines : list str) (m : Z) :
  concat (line_groups lines m) = lines.
Proof.
  unfold line_groups. rewrite concat_finish_g, lines_of_fold. reflexivity.
Qed.

(** An invariant [P] of the finished groups, given one [Q] of the pending
    group from which [P] follows. *)
Lemma line_groups_invariant (m : Z) (P Q : group -> Prop) (lines : list str) :
  Q [] ->
  (forall g, g <> [] -> Q g -> P g) ->
  (forall groups g line,
      Forall P groups -> Q g ->
      Forall P (fst (loop_body_g m (groups, g) line)) /\
      Q (snd (loop_body_g m (groups, g) line))) ->
  Forall P (line_groups lines m).
Proof.
  intros Hnil HQP Hstep. unfold line_groups.
  assert (H : Forall P (fst (fold_left (loop_body_g m) lines ([], []))) /\
              Q (snd (fold_left (loop_body_g m) lines ([], [])))).
  { apply (fold_left_invariant (loop_body_g m)
             (fun st => Forall P (fst st) /\ Q (snd st)) (fun _ => True)).
    - intros [groups g] line [HP HQ] _. apply Hstep; assumption.
    - apply Forall_trivial.
    - split; [constructor | exact Hnil]. }
  destruct (fold_left (loop_body_g m) lines ([], [])) as [groups g].
  cbn [fst snd] in H; destruct H as [HP HQ]. unfold finish_g.
  destruct g as [|l g]; cbn [nonnil]; [exact HP|].
  apply Forall_snoc; [exact HP | apply HQP; [discriminate | exact HQ]].
Qed.

Lemma flush_g_Forall (P : group -> Prop) (groups : list group) (g : group) :
  Forall P groups -> (g <> [] -> P g) ->
  Forall P (if nonnil g then groups ++ [g] else groups).
Proof.
  intros H Hg. destruct g; cbn [nonnil]; [exact H|].
  apply Forall_snoc; [exact H | apply Hg; discriminate].
Qed.

Lemma line_groups_nonnil (lines : list str) (m : Z) :
  Forall (fun g => g <> []) (line_groups lines m).
Proof.
  apply (line_groups_invariant m (fun g => g <> []) (fun _ => True)); auto.
  intros groups g line HP _. unfold loop_body_g.
  destruct (len line >=? m); [|destruct (len (concat g) + len line >=? m)];
    cbn [fst snd]; split; auto;
    repeat first [apply Forall_snoc | apply flush_g_Forall];
    auto; discriminate.
Qed.

Lemma concat_singleton (line : str) : concat [line] = line.
Proof. cbn [concat]; apply app_nil_r. Qed.

Lemma line_groups_size_ok (lines : list str) (m : Z) :
  0 < m -> Forall (size_ok m) (line_groups lines m).
Proof.
  intro Hm.
  apply (line_groups_invariant m (size_ok m) (fun g => len (concat g) < m)).
  - exact Hm.
  - intros g _ Hg; left; exact Hg.
  - intros groups g line HP HQ. unfold loop_body_g.
    loop_cases line (concat g) m; cbn [fst snd]; split;
      rewrite ?concat_singleton, ?concat_app, ?len_app, ?concat_singleton;
      try assumption; try lia.
    + apply Forall_snoc.
      * apply flush_g_Forall; [exact HP | intros _; left; exact HQ].
      * right; exists line; split; [reflexivity | exact Hbig].
    + apply flush_g_Forall; [exact HP | intros _; left; exact HQ].
Qed.

Lemma line_groups_isolated (lines : list str) (m : Z) :
  Forall (isolated m) (line_groups lines m).
Proof.
  apply (line_groups_invariant m (isolated m)
           (fun g => Forall (fun line => len line < m) g)).
  - constructor.
  - intros g _ Hg line Hin Hge.
    rewrite Forall_forall in Hg. specialize (Hg line Hin). lia.
  - assert (Hflush : forall groups g,
               Forall (isolated m) groups ->
               Forall (fun line => len line < m) g ->
               Forall (isolated m) (if nonnil g then groups ++ [g] else groups)).
    { intros groups g HP HQ. apply flush_g_Forall; [exact HP|].
      intros _ line Hin Hge. rewrite Forall_forall in HQ.
      specialize (HQ line Hin). lia. }
    intros groups g line HP HQ. unfold loop_body_g.
    loop_cases line (concat g) m; cbn [fst snd]; split.
    + apply Forall_snoc; [apply Hflush; assumption|].
      intros l [<-|[]] _. reflexivity.
    + constructor.
    + apply Hflush; assumption.
    + repeat constructor; exact Hbig.
    + exact HP.
    + apply Forall_snoc; assumption.
Qed.

(** *** Neighbouring chunks *)

Lemma last_chunk_snoc (chunks : list str) (x : str) :
  last_chunk (chunks ++ [x]) = Some x.
Proof.
  induction chunks as [|a chunks IH]; [reflexivity|].
  cbn [app last_chunk]. destruct (chunks ++ [x]) eqn:E; [|exact IH].
  destruct chunks; discriminate.
Qed.

Lemma adjacent_ge_snoc (m : Z) (chunks : list str) (x : str) :
  adjacent_ge m chunks ->
  (forall p, last_chunk chunks = Some p -> m <= len p + len x) ->
  adjacent_ge m (chunks ++ [x]).
Proof.
  induction chunks as [|a chunks IH]; intros Hadj Hlast; [exact I|].
  destruct chunks as [|b chunks].
  - cbn. split; [apply Hlast; reflexivity | exact I].
  - destruct Hadj as [Hab Hadj]. split; [exact Hab|].
    apply IH; [exact Hadj | exact Hlast].
Qed.

Lemma adjacent_ge_app (m : Z) (pre : list str) (a b : str) (post : list str) :
  adjacent_ge m (pre ++ a :: b :: post) -> m <= len a + len b.
Proof.
  induction pre as [|x pre IH]; intro H.
  - apply H.
  - apply IH. destruct pre; apply H.
Qed.

Lemma tight_flush (m : Z) (chunks : list str) (cur : str) (x : str) :
  tight m (chunks, cur) ->
  m <= len cur + len x ->
  tight m (if truthy cur then chunks ++ [cur] else chunks, x).
Proof.
  intros [Hadj Hlast] Hx; cbn [fst snd] in *.
  destruct cur as [|c cur]; cbn [truthy].
  - split; [exact Hadj|]. cbn [fst snd]. intros p Hp.
    specialize (Hlast p Hp). pose proof (len_nonneg x).
    change (len []) with 0 in *. lia.
  - split; cbn [fst snd].
    + apply adjacent_ge_snoc; assumption.
    + intros p Hp. rewrite last_chunk_snoc in Hp. inversion Hp; subst. exact Hx.
Qed.

Lemma tight_loop_body (m : Z) (st : list str * str) (line : str) :
  tight m st -> tight m (loop_body m st line).
Proof.
  destruct st as [chunks cur]; intro H; unfold loop_body.
  loop_cases line cur m.
  - pose proof (len_nonneg cur) as Hc.
    pose proof (tight_flush m chunks cur line H ltac:(lia)) as [Hadj Hlast].
    cbn [fst snd] in *. split; cbn [fst snd].
    + apply adjacent_ge_snoc; assumption.
    + intros p Hp. rewrite last_chunk_snoc in Hp. inversion Hp; subst.
      rewrite len_nil. lia.
  - apply tight_flush; [exact H | lia].
  - destruct H as [Hadj Hlast]; cbn [fst snd] in *. split; [exact Hadj|].
    cbn [fst snd]. intros p Hp. specialize (Hlast p Hp).
    rewrite len_app. pose proof (len_nonneg line). lia.
Qed.

Lemma adjacent_ge_finish (m : Z) (st : list str * str) :
  tight m st -> adjacent_ge m (finish st).
Proof.
  destruct st as [chunks cur]; intros [Hadj Hlast]; unfold finish.
  cbn [fst snd] in *. destruct (truthy cur); [|exact Hadj].
  apply adjacent_ge_snoc; assumption.
Qed.

Lemma adjacent_ge_split_string_by_lines (text : str) (m : Z) :
  adjacent_ge m (split_string_by_lines text m).
Proof.
  unfold split_string_by_lines. apply adjacent_ge_finish.
  apply (fold_left_invariant (loop_body m) (tight m) (fun _ => True)).
  - intros st line H _. apply tight_loop_body; exact H.
  - apply Forall_trivial.
  - split; [exact I | discriminate].
Qed.

(** *** Counting chunks *)

Lemma pending_len (cur : str) :
  pending (len cur) = if truthy cur then 1%nat else 0%nat.
Proof. destruct cur; reflexivity. Qed.

Lemma length_flush (chunks : list str) (cur : str) :
  length (if truthy cur then chunks ++ [cur] else chunks)
  = (length chunks + pending (len cur))%nat.
Proof.
  rewrite pending_len. destruct (truthy cur);
    rewrite ?length_app; cbn [length]; lia.
Qed.

Lemma length_finish_fold (m : Z) (lines : list str) (chunks : list str) (cur : str) :
  length (finish (fold_left (loop_body m) lines (chunks, cur)))
  = (length chunks + chunk_count m (len cur) lines)%nat.
Proof.
  revert chunks cur; induction lines as [|line lines IH]; intros chunks cur;
    cbn [fold_left chunk_count].
  - apply length_flush.
  - unfold loop_body.
    destruct (len line >=? m); [|destruct (len cur + len line >=? m)];
      rewrite IH, ?length_app, ?length_flush, ?len_app; cbn [length];
      rewrite ?len_nil; lia.
Qed.

Lemma length_split_string_by_lines (text : str) (m : Z) :
  length (split_string_by_lines text m) = chunk_count m 0 (splitlines text).
Proof.
  unfold split_string_by_lines. rewrite length_finish_fold. reflexivity.
Qed.

Lemma pending_le_1 (c : Z) : (pending c <= 1)%nat.
Proof. unfold pending; destruct (0 <? c); lia. Qed.

Lemma pending_mono (c1 c2 : Z) : c1 <= c2 -> (pending c1 <= pending c2)%nat.
Proof.
  unfold pending; intro H.
  destruct (0 <? c1) eqn:E1; destruct (0 <? c2) eqn:E2; lia.
Qed.

Lemma pending_pos (c : Z) : 0 < c -> pending c = 1%nat.
Proof. unfold pending; intro H. apply Z.ltb_lt in H. rewrite H. reflexivity. Qed.

(** A longer pending chunk never saves a chunk, and costs one at most. *)
Lemma chunk_count_mono (m : Z) (lines : list str) :
  forall c1 c2, 0 <= c1 <= c2 ->
  (chunk_count m c1 lines <= chunk_count m c2 lines
   <= 1 + chunk_count m c1 lines)%nat.
Proof.
  induction lines as [|line lines IH]; intros c1 c2 Hc; cbn [chunk_count].
  - pose proof (pending_mono c1 c2 ltac:(lia)). pose proof (pending_le_1 c2). lia.
  - pose proof (pending_mono c1 c2 ltac:(lia)) as Hp.
    pose proof (pending_le_1 c2) as Hp2.
    pose proof (len_nonneg line) as Hl.
    destruct (len line >=? m) eqn:Hbig; [lia|]. apply geb_false in Hbig.
    destruct (c1 + len line >=? m) eqn:H1; destruct (c2 + len line >=? m) eqn:H2;
      rewrite ?geb_true, ?geb_false in H1, H2.
    + lia.
    + lia.
    + rewrite (pending_pos c2) by lia.
      pose proof (IH (len line) (c1 + len line) ltac:(lia)). lia.
    + apply IH. lia.
Qed.

Lemma len_concat_cons (line : str) (g : group) :
  len (concat (line :: g)) = len line + len (concat g).
Proof. cbn [concat]. apply len_app. Qed.

(** Lines that fit together in the pending chunk are taken into it. *)
Lemma chunk_count_app_small (m : Z) (g rest : list str) :
  forall c, 0 <= c -> c + len (concat g) < m ->
  chunk_count m c (g ++ rest) = chunk_count m (c + len (concat g)) rest.
Proof.
  induction g as [|line g IH]; intros c Hc Hfit.
  - cbn [app concat]. rewrite len_nil, Z.add_0_r. reflexivity.
  - rewrite len_concat_cons in *.
    pose proof (len_nonneg line). pose proof (len_nonneg (concat g)).
    cbn [app chunk_count].
    destruct (len line >=? m) eqn:Hbig; [apply geb_true in Hbig; lia|].
    destruct (c + len line >=? m) eqn:Hfull; [apply geb_true in Hfull; lia|].
    rewrite IH by lia. f_equal. lia.
Qed.

(** No cutting of the lines into groups that respect the limit has fewer
    groups than the loop makes chunks. *)
Lemma chunk_count_minimal (m : Z) (parts : list group) :
  Forall (size_ok m) parts ->
  (chunk_count m 0 (concat parts) <= length parts)%nat.
Proof.
  induction parts as [|g parts IH]; intro H; [apply le_n|].
  inversion H as [|? ? Hg Hparts]; subst. specialize (IH Hparts).
  cbn [concat length]. destruct Hg as [Hsmall | [line [-> Hbig]]].
  - rewrite chunk_count_app_small by (rewrite ?Z.add_0_l; lia || assumption).
    rewrite Z.add_0_l. pose proof (len_nonneg (concat g)).
    pose proof (chunk_count_mono m (concat parts) 0 (len (concat g)) ltac:(lia)).
    lia.
  - cbn [app chunk_count]. apply geb_true in Hbig. rewrite Hbig.
    change (pending 0) with 0%nat. lia.
Qed.

(** *** Where a chunk ends *)

Lemma fold_left_loop_app (m : Z) (xs ys : list str) (st : list str * str) :
  fold_left (loop_body m) (xs ++ ys) st
  = fold_left (loop_body m) ys (fold_left (loop_body m) xs st).
Proof. apply fold_left_app. Qed.

(** The chunks already made are left as they are. *)
Lemma loop_body_prefix (m : Z) (chunks : list str) (cur line : str) :
  loop_body m (chunks, cur) line
  = (chunks ++ fst (loop_body m ([], cur) line),
     snd (loop_body m ([], cur) line)).
Proof.
  unfold loop_body.
  destruct (len line >=? m); [|destruct (len cur + len line >=? m)];
    destruct (truthy cur); cbn [fst snd app];
    rewrite <- ?app_assoc, ?app_nil_r; reflexivity.
Qed.

Lemma finish_fold_prefix (m : Z) (lines : list str) (chunks : list str) (cur : str) :
  finish (fold_left (loop_body m) lines (chunks, cur))
  = chunks ++ finish (fold_left (loop_body m) lines ([], cur)).
Proof.
  revert chunks cur; induction lines as [|line lines IH]; intros chunks cur;
    cbn [fold_left].
  - unfold finish. destruct (truthy cur); rewrite ?app_nil_r; reflexivity.
  - rewrite loop_body_prefix.
    destruct (loop_body m ([], cur) line) as [cs k]; cbn [fst snd].
    rewrite IH, (IH cs k), app_assoc. reflexivity.
Qed.

Lemma concat_finish_fold (m : Z) (lines : list str) (cur : str) :
  concat (finish (fold_left (loop_body m) lines ([], cur)))
  = cur ++ concat lines.
Proof. rewrite concat_finish, contents_fold. reflexivity. Qed.

(** A pending chunk that is not empty opens the next chunk. *)
Lemma finish_fold_head (m : Z) (lines : list str) :
  forall cur, nonempty cur ->
  exists y cs,
    finish (fold_left (loop_body m) lines ([], cur)) = (cur ++ y) :: cs /\
    y ++ concat cs = concat lines.
Proof.
  induction lines as [|line lines IH]; intros cur Hcur.
  - exists [], []. cbn [fold_left]. unfold finish.
    apply truthy_true in Hcur. rewrite Hcur, app_nil_r. split; reflexivity.
  - cbn [fold_left]. rewrite loop_body_eq.
    rewrite (proj2 (truthy_true cur) Hcur).
    destruct (len line >=? m); [|destruct (len cur + len line >=? m)].
    + exists [], (line :: finish (fold_left (loop_body m) lines ([], []))).
      rewrite finish_fold_prefix, app_nil_r. split; [reflexivity|].
      cbn [app concat]. rewrite concat_finish_fold. reflexivity.
    + exists [], (finish (fold_left (loop_body m) lines ([], line))).
      rewrite finish_fold_prefix, app_nil_r. split; [reflexivity|].
      cbn [app concat]. apply concat_finish_fold.
    + destruct (IH (cur ++ line)) as (y & cs & E & Hy).
      { destruct cur; [exfalso; apply Hcur; reflexivity | discriminate]. }
      exists (line ++ y), cs. rewrite <- app_assoc in E. split; [exact E|].
      cbn [concat]. rewrite <- app_assoc, Hy. reflexivity.
Qed.

(** After a line has gone through the loop body it closes the text held so
    far: it ends the last chunk, or it ends the pending chunk. *)
Lemma loop_body_tail (m : Z) (cur line : str) :
  exists cs x,
    concat cs ++ x = cur /\
    ((loop_body m ([], cur) line = (cs ++ [x ++ line], []) /\ m <= len line /\ x = [])
     \/ loop_body m ([], cur) line = (cs, x ++ line)).
Proof.
  unfold loop_body. loop_cases line cur m.
  - exists (if truthy cur then [cur] else []), []. split.
    + destruct cur; cbn [truthy concat app]; rewrite ?app_nil_r; reflexivity.
    + left. destruct (truthy cur); split; auto.
  - exists (if truthy cur then [cur] else []), []. split.
    + destruct cur; cbn [truthy concat app]; rewrite ?app_nil_r; reflexivity.
    + right. destruct (truthy cur); reflexivity.
  - exists [], cur. split; [reflexivity | right; reflexivity].
Qed.

(** Two lines in a row that reach the limit together are cut apart. *)
Lemma boundary_between (m : Z) (pre : list str) (l1 l2 : str) (post : list str) :
  nonempty l1 -> nonempty l2 ->
  m <= len l1 + len l2 ->
  exists cs1 x y cs2,
    finish (fold_left (loop_body m) (pre ++ l1 :: l2 :: post) ([], []))
    = cs1 ++ (x ++ l1) :: (l2 ++ y) :: cs2 /\
    concat cs1 ++ x = concat pre /\
    y ++ concat cs2 = concat post.
Proof.
  intros H1 H2 Hsum.
  rewrite fold_left_loop_app. cbn [fold_left].
  pose proof (contents_fold m pre ([], [])) as Hpre.
  destruct (fold_left (loop_body m) pre ([], [])) as [chunks0 cur0].
  unfold contents in Hpre; cbn [fst snd concat app] in Hpre.
  rewrite (loop_body_prefix m chunks0 cur0 l1).
  destruct (loop_body_tail m cur0 l1) as (cs & x & Hx & [(E & Hbig & ->) | E]);
    rewrite E; cbn [fst snd].
  - (* the first line is a chunk of its own *)
    cbn [app] in *. rewrite app_nil_r in Hx.
    rewrite loop_body_eq. cbn [truthy].
    assert (Hnext :
      exists y cs2,
        finish (fold_left (loop_body m) post
                  (if len l2 >=? m then ((chunks0 ++ cs ++ [l1]) ++ [l2], [])
                   else (chunks0 ++ cs ++ [l1], l2)))
        = (chunks0 ++ cs) ++ l1 :: (l2 ++ y) :: cs2 /\
        y ++ concat cs2 = concat post).
    { destruct (len l2 >=? m).
      - exists [], (finish (fold_left (loop_body m) post ([], []))).
        rewrite finish_fold_prefix, app_nil_r, <- !app_assoc.
        split; [reflexivity|]. cbn [app]. apply concat_finish_fold.
      - destruct (finish_fold_head m post l2 H2) as (y & cs2 & Ey & Hy).
        exists y, cs2. rewrite finish_fold_prefix, Ey, <- !app_assoc.
        split; [reflexivity | exact Hy]. }
    destruct Hnext as (y & cs2 & Ey & Hy).
    exists (chunks0 ++ cs), [], y, cs2. cbn [app]. split; [|split].
    + destruct (len l2 >=? m); [exact Ey|].
      change (len []) with 0. rewrite Z.add_0_l.
      destruct (len l2 >=? m); exact Ey.
    + rewrite app_nil_r, concat_app, Hx. exact Hpre.
    + exact Hy.
  - (* the first line ends the pending chunk *)
    assert (Hk : truthy (x ++ l1) = true).
    { apply truthy_true. destruct x; [exact H1 | discriminate]. }
    rewrite loop_body_eq, Hk.
    assert (Hfull : (len l2 >=? m) = false ->
                    (len (x ++ l1) + len l2 >=? m) = true).
    { intros _. apply geb_true. rewrite len_app.
      pose proof (len_nonneg x). lia. }
    assert (Hnext :
      exists y cs2,
        finish (fold_left (loop_body m) post
                  (if len l2 >=? m
                   then (((chunks0 ++ cs) ++ [x ++ l1]) ++ [l2], [])
                   else ((chunks0 ++ cs) ++ [x ++ l1], l2)))
        = (chunks0 ++ cs) ++ (x ++ l1) :: (l2 ++ y) :: cs2 /\
        y ++ concat cs2 = concat post).
    { destruct (len l2 >=? m).
      - exists [], (finish (fold_left (loop_body m) post ([], []))).
        rewrite finish_fold_prefix, app_nil_r, <- !app_assoc.
        split; [reflexivity|]. cbn [app]. apply concat_finish_fold.
      - destruct (finish_fold_head m post l2 H2) as (y & cs2 & Ey & Hy).
        exists y, cs2. rewrite finish_fold_prefix, Ey, <- !app_assoc.
        split; [reflexivity | exact Hy]. }
    destruct Hnext as (y & cs2 & Ey & Hy).
    exists (chunks0 ++ cs), x, y, cs2. split; [|split].
    + destruct (len l2 >=? m) eqn:Hbig2; [exact Ey|].
      rewrite (Hfull eq_refl). exact Ey.
    + rewrite concat_app, <- app_assoc, Hx. exact Hpre.
    + exact Hy.
Qed.

(** *** A limit that no line is below *)

Lemma fold_left_nonpositive (m : Z) (lines : list str) :
  m <= 0 ->
  forall chunks,
    fold_left (loop_body m) lines (chunks, []) = (chunks ++ lines, []).
Proof.
  intro Hm; induction lines as [|line lines IH]; intro chunks; cbn [fold_left].
  - rewrite app_nil_r; reflexivity.
  - rewrite loop_body_eq. pose proof (len_nonneg line) as Hl.
    rewrite (proj2 (geb_true (len line) m)) by lia. cbn [truthy].
    rewrite IH, <- app_assoc. reflexivity.
Qed.

Lemma split_string_by_lines_nonpositive (text : str) (m : Z) :
  m <= 0 -> split_string_by_lines text m = splitlines text.
Proof.
  intro Hm. unfold split_string_by_lines.
  rewrite fold_left_nonpositive by exact Hm. reflexivity.
Qed.

(** *** How many chunks *)

Lemma length_le_concat {A : Type} (ls : list (list A)) :
  Forall (fun l => l <> []) ls -> (length ls <= length (concat ls))%nat.
Proof.
  induction 1 as [|l ls Hl _ IH]; [apply le_n|].
  cbn [concat length]. rewrite length_app.
  destruct l; [congruence | cbn [length]; lia].
Qed.

Lemma length_split_string_by_lines_le (text : str) (m : Z) :
  (length (split_string_by_lines text m) <= length (splitlines text)
   <= length text)%nat.
Proof.
  split.
  - rewrite <- map_concat_line_groups, length_map.
    rewrite <- (concat_line_groups (splitlines text) m) at 2.
    apply length_le_concat, line_groups_nonnil.
  - rewrite <- (concat_splitlines text) at 2.
    apply length_le_concat, splitlines_nonempty.
Qed.

(** *** Three lines, the middle one too long *)

Lemma three_lines_middle_long (m : Z) (s1 long s2 : str) :
  nonempty s1 -> nonempty s2 ->
  len s1 < m -> m <= len long -> len s2 < m ->
  finish (fold_left (loop_body m) [s1; long; s2] ([], [])) = [s1; long; s2].
Proof.
  intros H1 H2 Hs1 Hlong Hs2. cbn [fold_left].
  apply truthy_true in H1, H2.
  apply geb_false in Hs1, Hs2. apply geb_true in Hlong.
  unfold finish, loop_body.
  repeat first
    [ rewrite Hs1 | rewrite Hlong | rewrite Hs2 | rewrite H1 | rewrite H2
    | rewrite Z.add_0_l
    | progress change (len []) with 0
    | progress cbv beta iota
    | progress cbn [app truthy] ].
  reflexivity.
Qed.

(** *** The chunker on the examples of its specification *)

Example split_hello_world :
  split_string_by_lines hello_world 4096 = [hello_world].
Proof. reflexivity. Qed.

(** One line of 5000 characters, without terminator, is one chunk. *)
Example split_oversized_single_line :
  split_string_by_lines (repeat chr_x 5000) 4096 = [repeat chr_x 5000].
Proof. vm_compute; reflexivity. Qed.

(** A line as long as the limit is a chunk of its own, and so the chunk
    pending before it is closed: ["a\n"], ["abc\n"], ["d"] with limit 4. *)
Example split_line_of_limit_length :
  split_string_by_lines (of_codes [97; 10; 97; 98; 99; 10; 100]%nat) 4
  = map of_codes [[97; 10]; [97; 98; 99; 10]; [100]]%nat.
Proof. reflexivity. Qed.

(** *** The chunker as Python runs it *)




(** What is not a string has no [splitlines]. *)
Example split_string_by_lines_py_no_str :
  split_string_by_lines_py (VInt 5) (VInt 4096) []
  = (Raise AttributeError, [], []).
Proof. reflexivity. Qed.

(** A limit that is no number cannot be compared with a length; it is not
    looked at when the string has no line. *)
Example split_string_by_lines_py_no_int :
  split_string_by_lines_py (VStr hello_world) VNone [] = (Raise TypeError, [], [])
  /\ split_string_by_lines_py (VStr []) VNone [] = (Ok [], [], []).
Proof. split; reflexivity. Qed.

(** ** The properties of the chunker *)

(** C1. Round trip: for every string and every positive limit, the chunks
    returned by [split_string_by_lines], concatenated in order, are exactly
    the string. *)
Theorem split_string_by_lines_round_trip (text : str) (limit : Z) :
  0 < limit ->
  concat (split_string_by_lines text limit) = text.
Proof. intros _. apply concat_split_string_by_lines. Qed.

Lemma split_string_by_lines_round_trip_witness :
  0 < 4 /\ concat (split_string_by_lines three_lines 4) = three_lines.
Proof.
  split; [reflexivity|].
  apply (split_string_by_lines_round_trip three_lines 4). reflexivity.
Defined.

(** C2. Size invariant: for every string and every positive limit, the
    chunks are the concatenations of consecutive groups of the lines of the
    string, and every group is shorter than the limit or is one single line
    that is not; a chunk reaches the limit in the second case only. *)
Theorem split_string_by_lines_size_invariant (text : str) (limit : Z) :
  0 < limit ->
  exists groups : list group,
    concat groups = splitlines text /\
    map (@concat char) groups = split_string_by_lines text limit /\
    Forall (size_ok limit) groups.
Proof.
  intro Hlimit. exists (line_groups (splitlines text) limit).
  split; [apply concat_line_groups|].
  split; [apply map_concat_line_groups|].
  apply line_groups_size_ok; exact Hlimit.
Qed.

Lemma split_string_by_lines_size_invariant_witness :
  0 < 4 /\
  exists groups : list group,
    concat groups = splitlines three_lines /\
    map (@concat char) groups = split_string_by_lines three_lines 4 /\
    Forall (size_ok 4) groups.
Proof.
  split; [reflexivity|].
  apply (split_string_by_lines_size_invariant three_lines 4). reflexivity.
Defined.

(** C3. Oversized-line isolation: for every string and every positive limit,
    in the groups of lines the chunks are made of, a line whose length is the
    limit or more is alone in its group, so it is a chunk of its own.  In
    particular, for a string whose lines are a line shorter than 4096, a line
    of 5000 characters and a line shorter than 4096, the chunks with limit
    4096 are these three lines. *)
Theorem oversized_line_isolation :
  (forall (text : str) (limit : Z),
      0 < limit ->
      exists groups : list group,
        concat groups = splitlines text /\
        map (@concat char) groups = split_string_by_lines text limit /\
        Forall (isolated limit) groups) /\
  (forall (text short1 long short2 : str),
      splitlines text = [short1; long; short2] ->
      len short1 < 4096 -> len long = 5000 -> len short2 < 4096 ->
      split_string_by_lines text 4096 = [short1; long; short2]).
Proof.
  split.
  - intros text limit _. exists (line_groups (splitlines text) limit).
    split; [apply concat_line_groups|].
    split; [apply map_concat_line_groups|].
    apply line_groups_isolated.
  - intros text short1 long short2 Hlines H1 Hlong H2.
    pose proof (splitlines_nonempty text) as Hne. rewrite Hlines in Hne.
    inversion Hne as [|? ? Hn1 Hne']; subst.
    inversion Hne' as [|? ? _ Hne'']; subst.
    inversion Hne'' as [|? ? Hn2 _]; subst.
    unfold split_string_by_lines. rewrite Hlines.
    apply three_lines_middle_long; try assumption. lia.
Qed.

Lemma oversized_line_isolation_witness :
  (0 < 4 /\
   exists groups : list group,
     concat groups = splitlines three_lines /\
     map (@concat char) groups = split_string_by_lines three_lines 4 /\
     Forall (isolated 4) groups) /\
  (splitlines (short_hi ++ long_x ++ short_bye) = [short_hi; long_x; short_bye] /\
   len short_hi < 4096 /\ len long_x = 5000 /\ len short_bye < 4096 /\
   split_string_by_lines (short_hi ++ long_x ++ short_bye) 4096
   = [short_hi; long_x; short_bye]).
Proof.
  split.
  - split; [reflexivity|].
    apply (proj1 oversized_line_isolation three_lines 4). reflexivity.
  - split; [vm_compute; reflexivity|].
    split; [reflexivity|].
    split; [vm_compute; reflexivity|].
    split; [reflexivity|].
    apply (proj2 oversized_line_isolation
             (short_hi ++ long_x ++ short_bye) short_hi long_x short_bye);
      vm_compute; reflexivity.
Defined.

(** C4. Lines are never split and their order is kept: for every string and
    every positive limit, the list of chunks is the list of lines of the
    string cut into consecutive runs, each run of one line or more, and each
    chunk is the concatenation of its run, in the order of the lines. *)
Theorem split_string_by_lines_partitions_lines (text : str) (limit : Z) :
  0 < limit ->
  exists groups : list group,
    concat groups = splitlines text /\
    map (@concat char) groups = split_string_by_lines text limit /\
    Forall (fun g => g <> []) groups.
Proof.
  intros _. exists (line_groups (splitlines text) limit).
  split; [apply concat_line_groups|].
  split; [apply map_concat_line_groups|].
  apply line_groups_nonnil.
Qed.

Lemma split_string_by_lines_partitions_lines_witness :
  0 < 4 /\
  exists groups : list group,
    concat groups = splitlines three_lines /\
    map (@concat char) groups = split_string_by_lines three_lines 4 /\
    Forall (fun g => g <> []) groups.
Proof.
  split; [reflexivity|].
  apply (split_string_by_lines_partitions_lines three_lines 4). reflexivity.
Defined.

(** C5. No empty chunk, and the empty string: for every positive limit no
    chunk returned by [split_string_by_lines] is the empty string, and the
    empty string gives the empty list, as with the limit 4096. *)
Theorem split_string_by_lines_no_empty_chunk (text : str) (limit : Z) :
  0 < limit ->
  Forall nonempty (split_string_by_lines text limit) /\
  split_string_by_lines [] limit = [] /\
  split_string_by_lines [] 4096 = [].
Proof.
  intros _. split; [apply split_string_by_lines_nonempty|].
  split; reflexivity.
Qed.

Lemma split_string_by_lines_no_empty_chunk_witness :
  0 < 4096 /\
  Forall nonempty (split_string_by_lines hello_world 4096) /\
  split_string_by_lines [] 4096 = [] /\
  split_string_by_lines [] 4096 = [].
Proof.
  split; [reflexivity|].
  apply (split_string_by_lines_no_empty_chunk hello_world 4096). reflexivity.
Defined.

(** C6. Fewest chunks: for every string and every positive limit, two chunks
    that follow one another are together as long as the limit or longer, so
    they cannot be joined into a chunk below the limit; and no cutting of the
    lines of the string into consecutive groups, each shorter than the limit
    or a single line that is not, has fewer groups than
    [split_string_by_lines] returns chunks. *)
Theorem split_string_by_lines_minimal (text : str) (limit : Z) :
  0 < limit ->
  (forall (before : list str) (a b : str) (after : list str),
      split_string_by_lines text limit = before ++ a :: b :: after ->
      limit <= len a + len b) /\
  (forall parts : list group,
      concat parts = splitlines text ->
      Forall (size_ok limit) parts ->
      (length (split_string_by_lines text limit) <= length parts)%nat).
Proof.
  intros _. split.
  - intros before a b after E.
    apply (adjacent_ge_app limit before a b after).
    rewrite <- E. apply adjacent_ge_split_string_by_lines.
  - intros parts Hparts Hok.
    rewrite length_split_string_by_lines, <- Hparts.
    apply chunk_count_minimal; exact Hok.
Qed.

Lemma split_string_by_lines_minimal_witness :
  0 < 4 /\
  split_string_by_lines three_lines 4
  = [] ++ of_codes [97; 98; 10]%nat :: of_codes [99; 100; 10]%nat
       :: [of_codes [101; 102]%nat] /\
  4 <= len (of_codes [97; 98; 10]%nat) + len (of_codes [99; 100; 10]%nat) /\
  (length (split_string_by_lines three_lines 4)
   <= length (map (fun line => [line]) (splitlines three_lines)))%nat.
Proof.
  split; [reflexivity|].
  split; [reflexivity|].
  split.
  - apply (proj1 (split_string_by_lines_minimal three_lines 4 eq_refl)
             [] (of_codes [97; 98; 10]%nat) (of_codes [99; 100; 10]%nat)
             [of_codes [101; 102]%nat]).
    reflexivity.
  - apply (proj2 (split_string_by_lines_minimal three_lines 4 eq_refl)).
    + reflexivity.
    + repeat constructor; left; vm_compute; reflexivity.
Defined.

(** C7, as the code has it.  The lines ["a" * 2000 + "\n"] and
    ["b" * 2096 + "\n"] are 4098 characters together, which is more than the
    limit 4096, and they are returned as two chunks, each one of the lines;
    so are ["a" * 1999 + "\n"] and ["b" * 2095 + "\n"], which are exactly
    4096 characters together.  In general, when two lines in a row have
    exactly the limit as their combined length, a chunk ends with the first
    and the next chunk begins with the second. *)
Theorem exact_boundary_split :
  len line_a + len line_b = 4098 /\
  split_string_by_lines (line_a ++ line_b) 4096 = [line_a; line_b] /\
  len line_a' + len line_b' = 4096 /\
  split_string_by_lines (line_a' ++ line_b') 4096 = [line_a'; line_b'] /\
  (forall (text : str) (limit : Z) (before : list str) (l1 l2 : str)
          (after : list str),
      splitlines text = before ++ l1 :: l2 :: after ->
      len l1 + len l2 = limit ->
      exists (cs1 : list str) (x y : str) (cs2 : list str),
        split_string_by_lines text limit
        = cs1 ++ (x ++ l1) :: (l2 ++ y) :: cs2 /\
        concat cs1 ++ x = concat before /\
        y ++ concat cs2 = concat after).
Proof.
  split; [reflexivity|].
  split; [vm_compute; reflexivity|].
  split; [reflexivity|].
  split; [vm_compute; reflexivity|].
  intros text limit before l1 l2 after Hlines Hsum.
  pose proof (splitlines_nonempty text) as Hne. rewrite Hlines in Hne.
  apply Forall_app in Hne. destruct Hne as [_ Hne].
  inversion Hne as [|? ? Hn1 Hne']; subst.
  inversion Hne' as [|? ? Hn2 _]; subst.
  unfold split_string_by_lines. rewrite Hlines.
  apply boundary_between; try assumption. lia.
Qed.

Lemma exact_boundary_split_witness :
  splitlines (line_a' ++ line_b') = [] ++ line_a' :: line_b' :: [] /\
  len line_a' + len line_b' = 4096 /\
  exists (cs1 : list str) (x y : str) (cs2 : list str),
    split_string_by_lines (line_a' ++ line_b') 4096
    = cs1 ++ (x ++ line_a') :: (line_b' ++ y) :: cs2 /\
    concat cs1 ++ x = concat [] /\
    y ++ concat cs2 = concat [].
Proof.
  split; [vm_compute; reflexivity|].
  split; [reflexivity|].
  apply (proj2 (proj2 (proj2 (proj2 exact_boundary_split)))
           (line_a' ++ line_b') 4096 [] line_a' line_b' []).
  - vm_compute; reflexivity.
  - reflexivity.
Defined.

(** C7 as the specification words it fails: the two lines it names are not
    4096 characters together. *)
Lemma line_a_line_b_not_4096 :
  len line_a = 2001 /\ len line_b = 2097 /\
  len (line_a ++ line_b) = 4098 /\
  (len (line_a ++ line_b) =? 4096) = false.
Proof. repeat split; reflexivity. Qed.



(** C9, as the code has it.  For every limit that is zero or negative the
    call raises no error of any kind, [PreconditionError] included: the limit
    is not checked, and the call returns a list. *)
Theorem nonpositive_limit_raises_nothing (text : str) (limit : Z) :
  limit <= 0 ->
  (forall e, call_split_string_by_lines text limit <> Raised e) /\
  exists chunks, call_split_string_by_lines text limit = Returned chunks.
Proof.
  intros _. split; [intros e; discriminate|].
  exists (split_string_by_lines text limit). reflexivity.
Qed.

Lemma nonpositive_limit_raises_nothing_witness :
  0 <= 0 /\
  (forall e, call_split_string_by_lines three_lines 0 <> Raised e) /\
  exists chunks, call_split_string_by_lines three_lines 0 = Returned chunks.
Proof.
  split; [discriminate|].
  apply (nonpositive_limit_raises_nothing three_lines 0). discriminate.
Defined.

(** C9 as the specification words it fails: with the limit 0, and with the
    limit -1, the call returns the lines and raises no [PreconditionError]. *)
Lemma nonpositive_limit_no_precondition_error :
  call_split_string_by_lines three_lines 0
  = Returned [of_codes [97; 98; 10]%nat; of_codes [99; 100; 10]%nat;
              of_codes [101; 102]%nat] /\
  call_split_string_by_lines three_lines (-1)
  = Returned [of_codes [97; 98; 10]%nat; of_codes [99; 100; 10]%nat;
              of_codes [101; 102]%nat] /\
  call_split_string_by_lines three_lines 0 <> Raised PreconditionError.
Proof. repeat split; try reflexivity. discriminate. Qed.

(** C10. A limit that is zero or negative: the call raises nothing and
    returns the lines of the string, terminators kept, each line a chunk of
    its own, as every line is then at least as long as the limit. *)
Theorem nonpositive_limit_returns_lines (text : str) (limit : Z) :
  limit <= 0 ->
  call_split_string_by_lines text limit = Returned (splitlines text) /\
  Forall (fun line => limit <= len line) (splitlines text).
Proof.
  intro Hlimit. split.
  - unfold call_split_string_by_lines.
    rewrite split_string_by_lines_nonpositive by exact Hlimit. reflexivity.
  - apply Forall_forall. intros line _. pose proof (len_nonneg line). lia.
Qed.

Lemma nonpositive_limit_returns_lines_witness :
  -3 <= 0 /\
  call_split_string_by_lines three_lines (-3)
  = Returned (splitlines three_lines) /\
  Forall (fun line => -3 <= len line) (splitlines three_lines).
Proof.
  split; [discriminate|].
  apply (nonpositive_limit_returns_lines three_lines (-3)). discriminate.
Defined.

(** ** The retry loop of [process_text_with_gemini] *)

Section Gemini.

Context {R J : Type}.
Variable g : gemini R J.
Variable text_input : str.
Variables max_retries delay_seconds : Z.

Lemma snd_try_body (made : nat) (response : option R) :
  snd (try_body g made text_input response) = attempt g made text_input.
Proof.
  unfold attempt, try_body.
  destruct (generate_content g made text_input); reflexivity.
Qed.

Lemma fst_try_body (made : nat) (response : option R) :
  fst (try_body g made text_input response)
  = match generate_content g made text_input with
    | Ok r => Some r
    | Raise _ => response
    end.
Proof.
  unfold try_body. destruct (generate_content g made text_input); reflexivity.
Qed.

Lemma retry_loop_again (fuel : nat) (current_try : Z) (made : nat)
      (slept : list Z) (response : option R) :
  rate_limited (attempt g made text_input) ->
  current_try + 1 <= max_retries ->
  (forall m, print g m = Ok tt) ->
  time_sleep g delay_seconds = Ok tt ->
  retry_loop g text_input max_retries delay_seconds
             (S fuel) current_try made slept response
  = retry_loop g text_input max_retries delay_seconds
               fuel (current_try + 1) (S made) (slept ++ [delay_seconds])
               (fst (try_body g made text_input response)).
Proof.
  intros (e & Hg & He) Hct Hprint Hsleep. cbn [retry_loop].
  rewrite (proj2 (Z.leb_le current_try max_retries)) by lia.
  rewrite <- (snd_try_body made response) in Hg.
  destruct (try_body g made text_input response) as [response' tried].
  cbn [fst snd] in *. subst tried. rewrite He.
  destruct (current_try + 1 >? max_retries) eqn:E.
  - rewrite Z.gtb_ltb in E. apply Z.ltb_lt in E. lia.
  - rewrite Hprint, Hsleep. reflexivity.
Qed.

Lemma retry_loop_stop (fuel : nat) (current_try : Z) (made : nat)
      (slept : list Z) (response : option R) :
  current_try <= max_retries ->
  (forall m, print g m = Ok tt) ->
  ~ rate_limited (attempt g made text_input) \/ current_try = max_retries ->
  (forall e, generate_content g made text_input = Raise e ->
             is_json_decode_error e = false) ->
  retry_loop g text_input max_retries delay_seconds
             (S fuel) current_try made slept response
  = Some {| calls := S made; sleeps := slept;
            ended := attempt g made text_input |}.
Proof.
  intros Hct Hprint Hstop Hjson. cbn [retry_loop].
  rewrite (proj2 (Z.leb_le current_try max_retries)) by lia.
  pose proof (snd_try_body made response) as Hsnd.
  pose proof (fst_try_body made response) as Hfst.
  destruct (try_body g made text_input response) as [response' tried].
  cbn [fst snd] in *. rewrite <- Hsnd in *.
  destruct tried as [v | e]; [reflexivity|].
  destruct (is_resource_exhausted e) eqn:He.
  - destruct Hstop as [Hno | Hlast].
    + exfalso; apply Hno. exists e; split; [reflexivity | exact He].
    + destruct (current_try + 1 >? max_retries) eqn:E.
      * unfold and_then. rewrite !Hprint. reflexivity.
      * rewrite Z.gtb_ltb in E. apply Z.ltb_ge in E. lia.
  - destruct (is_json_decode_error e) eqn:Hj.
    + unfold on_json_decode_error, and_then. rewrite !Hprint.
      destruct (generate_content g made text_input) as [r | e0] eqn:Hgen.
      * subst response'.
        unfold attempt, try_body in Hsnd. rewrite Hgen in Hsnd.
        cbn [snd] in Hsnd. unfold and_then in Hsnd.
        destruct (text_of g r) as [t | e1].
        -- rewrite Hprint. reflexivity.
        -- rewrite <- Hsnd. reflexivity.
      * unfold attempt, try_body in Hsnd. rewrite Hgen in Hsnd.
        cbn [snd] in Hsnd. inversion Hsnd; subst e0.
        rewrite (Hjson e eq_refl) in Hj. discriminate.
    + unfold and_then. rewrite Hprint. reflexivity.
Qed.

Lemma retry_loop_decided (k : nat) :
  forall (fuel : nat) (current_try : Z) (made : nat) (slept : list Z)
         (response : option R),
    (forall m, print g m = Ok tt) ->
    time_sleep g delay_seconds = Ok tt ->
    (k < fuel)%nat ->
    current_try + Z.of_nat k <= max_retries ->
    (forall i, (i < k)%nat -> rate_limited (attempt g (made + i) text_input)) ->
    ~ rate_limited (attempt g (made + k) text_input)
    \/ current_try + Z.of_nat k = max_retries ->
    (forall e, generate_content g (made + k) text_input = Raise e ->
               is_json_decode_error e = false) ->
    retry_loop g text_input max_retries delay_seconds
               fuel current_try made slept response
    = Some {| calls := S (made + k);
              sleeps := slept ++ repeat delay_seconds k;
              ended := attempt g (made + k) text_input |}.
Proof.
  induction k as [|k IH];
    intros fuel current_try made slept response Hprint Hsleep Hfuel Hct
           Hbefore Hstop Hjson;
    (destruct fuel as [|fuel]; [lia|]).
  - rewrite Nat.add_0_r in *. cbn [repeat]. rewrite app_nil_r.
    apply retry_loop_stop; try assumption; [lia|].
    destruct Hstop as [H | H]; [left; exact H | right; lia].
  - rewrite retry_loop_again; try assumption; try lia.
    + replace (made + S k)%nat with (S made + k)%nat in * by lia.
      rewrite (IH fuel (current_try + 1) (S made) (slept ++ [delay_seconds]));
        try assumption; try lia.
      * cbn [repeat]. rewrite <- app_assoc. reflexivity.
      * intros i Hi. replace (S made + i)%nat with (made + S i)%nat by lia.
        apply Hbefore. lia.
      * destruct Hstop as [H | H]; [left; exact H | right; lia].
    + specialize (Hbefore 0%nat ltac:(lia)). rewrite Nat.add_0_r in Hbefore.
      exact Hbefore.
Qed.

(** Whatever the outside does, the loop ends within its fuel, after no more
    requests than tries are left, has paused once before each request but the
    first, and ends in one of the ways of [ends_as]. *)
Lemma retry_loop_ends (fuel : nat) :
  forall (current_try : Z) (made : nat) (slept : list Z) (response : option R),
    current_try <= max_retries ->
    (Z.to_nat (max_retries - current_try) < fuel)%nat ->
    (response = None ->
     forall i, (i < made)%nat ->
               exists e, generate_content g i text_input = Raise e) ->
    exists (r : run J) (k : nat),
      retry_loop g text_input max_retries delay_seconds
                 fuel current_try made slept response = Some r /\
      (k <= Z.to_nat (max_retries - current_try))%nat /\
      calls r = S (made + k) /\
      sleeps r = slept ++ repeat delay_seconds k /\
      ends_as g text_input delay_seconds (made + k) (ended r).
Proof.
  induction fuel as [|fuel IH];
    intros current_try made slept response Hct Hfuel Hunbound; [lia|].
  cbn [retry_loop]. rewrite (proj2 (Z.leb_le current_try max_retries)) by lia.
  pose proof (snd_try_body made response) as Hsnd.
  pose proof (fst_try_body made response) as Hfst.
  destruct (try_body g made text_input response) as [response' tried].
  cbn [fst snd] in Hsnd, Hfst.
  assert (Hhere : forall o : result J,
             ends_as g text_input delay_seconds made o ->
             exists (r : run J) (k : nat),
               Some {| calls := S made; sleeps := slept; ended := o |} = Some r /\
               (k <= Z.to_nat (max_retries - current_try))%nat /\
               calls r = S (made + k) /\
               sleeps r = slept ++ repeat delay_seconds k /\
               ends_as g text_input delay_seconds (made + k) (ended r)).
  { intros o Ho. eexists; exists 0%nat. split; [reflexivity|].
    cbn [calls sleeps ended repeat]. rewrite Nat.add_0_r, app_nil_r.
    repeat split; auto; lia. }
  destruct tried as [v | e].
  - apply Hhere. left. exact Hsnd.
  - destruct (is_resource_exhausted e) eqn:He.
    + assert (Hlimited : rate_limited (attempt g made text_input)).
      { exists e. split; [symmetry; exact Hsnd | exact He]. }
      destruct (current_try + 1 >? max_retries) eqn:E.
      * apply Hhere. unfold and_then.
        destruct (print g (MaxRetriesReached (firstn 50 text_input)))
          as [[] | e1] eqn:P1;
          [|right; left; eexists; exists e1; split; [exact P1 | reflexivity]].
        destruct (print g (LastError e)) as [[] | e2] eqn:P2;
          [|right; left; eexists; exists e2; split; [exact P2 | reflexivity]].
        left. exact Hsnd.
      * rewrite Z.gtb_ltb in E. apply Z.ltb_ge in E.
        destruct (print g (RateLimitExceeded delay_seconds (current_try + 1)
                                             max_retries))
          as [[] | e1] eqn:P1;
          [|apply Hhere; right; left; eexists; exists e1;
            split; [exact P1 | reflexivity]].
        destruct (time_sleep g delay_seconds) as [[] | e2] eqn:Hsleep;
          [|apply Hhere; right; right; left; exists e2;
            split; [exact Hsleep|]; split; [reflexivity | exact Hlimited]].
        destruct (IH (current_try + 1) (S made) (slept ++ [delay_seconds])
                     response')
          as (r & k & Hr & Hk & Hcalls & Hsleeps & Hended); try lia.
        { intros Hnone i Hi. subst response'.
          destruct (generate_content g made text_input) as [r0 | e0] eqn:Hgen;
            [discriminate|].
          destruct (Nat.eq_dec i made) as [-> | Hne].
          - exists e0. exact Hgen.
          - apply Hunbound; [assumption | lia]. }
        exists r, (S k). split; [exact Hr|].
        replace (made + S k)%nat with (S made + k)%nat by lia.
        cbn [repeat]. rewrite <- app_assoc in Hsleeps.
        repeat split; auto; lia.
    + destruct (is_json_decode_error e) eqn:Hj.
      * apply Hhere. unfold on_json_decode_error, and_then.
        destruct (print g DecodeFailed) as [[] | e1] eqn:P1;
          [|right; left; eexists; exists e1; split; [exact P1 | reflexivity]].
        destruct (print g (InputTextWas (firstn 100 text_input)))
          as [[] | e2] eqn:P2;
          [|right; left; eexists; exists e2; split; [exact P2 | reflexivity]].
        destruct (generate_content g made text_input) as [r0 | e0] eqn:Hgen.
        -- subst response'.
           unfold attempt, try_body in Hsnd. rewrite Hgen in Hsnd.
           cbn [snd] in Hsnd. unfold and_then in Hsnd.
           destruct (text_of g r0) as [t | e3] eqn:Ht.
           ++ destruct (print g (ModelResponseWas t)) as [[] | e4] eqn:P3;
                [|right; left; eexists; exists e4;
                  split; [exact P3 | reflexivity]].
              left. unfold attempt, try_body. rewrite Hgen. cbn [snd].
              unfold and_then. rewrite Ht. exact Hsnd.
           ++ left. unfold attempt, try_body. rewrite Hgen. cbn [snd].
              unfold and_then. rewrite Ht. reflexivity.
        -- subst response'.
           assert (He0 : e0 = e).
           { unfold attempt, try_body in Hsnd. rewrite Hgen in Hsnd.
             cbn [snd] in Hsnd. congruence. }
           subst e0.
           destruct response as [r1|].
           ++ destruct (text_of g r1) as [t | e3] eqn:Ht.
              ** destruct (print g (ModelResponseWas t)) as [[] | e4] eqn:P3;
                   [|right; left; eexists; exists e4;
                     split; [exact P3 | reflexivity]].
                 left. exact Hsnd.
              ** right; right; right. exists e.
                 split; [exact Hgen|]. split; [exact Hj|].
                 right. exists r1, e3. split; [exact Ht | reflexivity].
           ++ right; right; right. exists e.
              split; [exact Hgen|]. split; [exact Hj|].
              left. split; [reflexivity|].
              intros i Hi. destruct (Nat.eq_dec i made) as [-> | Hne].
              ** exists e. exact Hgen.
              ** apply Hunbound; [reflexivity | lia].
      * apply Hhere. unfold and_then.
        destruct (print g (UnexpectedError e)) as [[] | e1] eqn:P1;
          [|right; left; eexists; exists e1; split; [exact P1 | reflexivity]].
        left. exact Hsnd.
Qed.

End Gemini.

(** X1. [process_text_with_gemini] always ends, whatever the model, [print]
    and [time.sleep] do: it makes at most [max_retries + 1] requests (none
    when [max_retries] is negative), and it has paused [delay_seconds]
    exactly once between two requests in a row, never after the last. *)
Theorem process_text_with_gemini_bounded {R J : Type}
        (g : gemini R J) (text_input : str)
        (max_retries delay_seconds : Z) :
  exists r : run J,
    process_text_with_gemini g text_input max_retries delay_seconds
    = Some r /\
    (calls r <= Z.to_nat (max_retries + 1))%nat /\
    sleeps r = repeat delay_seconds (pred (calls r)).
Proof.
  unfold process_text_with_gemini.
  destruct (Z_lt_le_dec max_retries 0) as [Hneg | Hpos].
  - cbn [retry_loop]. rewrite (proj2 (Z.leb_gt 0 max_retries)) by lia.
    eexists; split; [reflexivity|]. cbn [calls sleeps]. split; [lia | reflexivity].
  - destruct (retry_loop_ends g text_input max_retries delay_seconds
                (S (Z.to_nat (max_retries + 1))) 0 0%nat [] None)
      as (r & k & Hr & Hk & Hcalls & Hsleeps & _);
      [lia | lia | intros _ i Hi; lia |].
    exists r. split; [exact Hr|]. rewrite Hcalls, Hsleeps.
    cbn [Nat.add pred app]. split; [lia | reflexivity].
Qed.

(** X2. When every [print] and [time.sleep(delay_seconds)] succeed, the
    first request whose [try] body does not raise [ResourceExhausted], or
    else the request number [max_retries], decides: if the requests [0] to
    [k - 1] raise [ResourceExhausted], [k <= max_retries], the request [k]
    does not or [k = max_retries], and [generate_content] itself does not
    raise a [JSONDecodeError] at the request [k], then [k + 1] requests are
    made, with [k] pauses of [delay_seconds], and the call returns the value
    decoded at the request [k] or raises what the [try] body raised there. *)
Theorem process_text_with_gemini_decided {R J : Type}
        (g : gemini R J) (text_input : str)
        (max_retries delay_seconds : Z) (k : nat) :
  (forall m, print g m = Ok tt) ->
  time_sleep g delay_seconds = Ok tt ->
  Z.of_nat k <= max_retries ->
  (forall i, (i < k)%nat -> rate_limited (attempt g i text_input)) ->
  ~ rate_limited (attempt g k text_input) \/ Z.of_nat k = max_retries ->
  (forall e, generate_content g k text_input = Raise e ->
             is_json_decode_error e = false) ->
  process_text_with_gemini g text_input max_retries delay_seconds
  = Some {| calls := S k;
            sleeps := repeat delay_seconds k;
            ended := attempt g k text_input |}.
Proof.
  intros Hprint Hsleep Hk Hbefore Hstop Hjson. unfold process_text_with_gemini.
  apply (retry_loop_decided g text_input max_retries delay_seconds
           k (S (Z.to_nat (max_retries + 1))) 0 0%nat [] None);
    try assumption; lia.
Qed.

Lemma process_text_with_gemini_decided_witness :
  process_text_with_gemini answers_third hello_world 3 60
  = Some {| calls := 3; sleeps := [60; 60]; ended := Ok hello_world |}.
Proof.
  apply (process_text_with_gemini_decided answers_third hello_world 3 60 2).
  - intro m. reflexivity.
  - reflexivity.
  - discriminate.
  - intros i Hi. exists ResourceExhausted.
    destruct i as [|[|i]]; [split; reflexivity | split; reflexivity | lia].
  - left. intros (e & H & _). discriminate.
  - intros e H. discriminate.
Defined.



(** When the first request raises a [JSONDecodeError] out of
    [generate_content], the handler reads [response] unbound. *)
Example process_text_with_gemini_unbound_response :
  process_text_with_gemini decode_error_first hello_world 3 60
  = Some {| calls := 1; sleeps := []; ended := Raise UnboundLocalError |}.
Proof. reflexivity. Qed.

(** When [time.sleep] raises, as it does for a length too large, the call
    ends after the first refused request. *)
Example process_text_with_gemini_sleep_raises :
  process_text_with_gemini sleep_overflows hello_world 3 (10 ^ 30)
  = Some {| calls := 1; sleeps := [];
            ended := Raise (OtherException (of_string "OverflowError")) |}.
Proof. reflexivity. Qed.

(** ** Sending a long message *)

Section Telegram.

Context {M J : Type}.
Variable api : telegram_api M J.
Variable chat : Z.
Variable tok : telegram.

(** One call for one chunk: nothing is requested when the escaper raises, and
    one request is made otherwise, whose answer is the result. *)
Lemma send_to_telegram_chunk (made : nat) (m : str) :
  (exists e, markdownify api m = Raise e /\
             send_to_telegram api made m chat false tok None = ([], Raise e)) \/
  (exists r, sends api chat tok m r /\
             send_to_telegram api made m chat false tok None
             = ([r], post api made r)).
Proof.
  unfold send_to_telegram, sends. cbn [negb].
  destruct (markdownify api m) as [t | e].
  - right. eexists. split; [exists t; split; reflexivity | reflexivity].
  - left. exists e. split; reflexivity.
Qed.

(** The requests made are those of the first chunks, in order, up to the
    first failure. *)
Lemma send_each_prefix (chunks : list str) :
  forall made : nat,
  exists n : nat,
    (n <= length chunks)%nat /\
    Forall2 (sends api chat tok) (firstn n chunks)
            (fst (send_each api made chunks chat tok)) /\
    match snd (send_each api made chunks chat tok) with
    | Ok _ => n = length chunks
    | Raise e =>
        (exists m, nth_error chunks n = Some m /\ markdownify api m = Raise e)
        \/ (exists n' r,
               n = S n' /\
               nth_error (fst (send_each api made chunks chat tok)) n' = Some r /\
               post api (made + n') r = Raise e)
    end.
Proof.
  induction chunks as [|m chunks IH]; intro made.
  - exists 0%nat. cbn. repeat split; constructor.
  - cbn [send_each].
    destruct (send_to_telegram_chunk made m) as [(e & Hm & E) | (r & Hr & E)];
      rewrite E.
    + exists 0%nat. cbn [firstn fst snd length]. split; [lia|].
      split; [constructor|]. left. exists m. split; [reflexivity | exact Hm].
    + destruct (post api made r) as [j | e] eqn:Hpost.
      * destruct (IH (made + length [r])%nat) as (n & Hn & Hsent & Hres).
        destruct (send_each api (made + length [r]) chunks chat tok)
          as [sent' r'] eqn:Erest.
        cbn [fst snd] in *. exists (S n). cbn [firstn length app].
        split; [lia|]. split; [constructor; assumption|].
        destruct r' as [u | e].
        -- lia.
        -- destruct Hres as [Hmd | (n' & r0 & -> & Hnth & Hp)].
           ++ left. exact Hmd.
           ++ right. exists (S n'), r0. split; [reflexivity|].
              split; [exact Hnth|].
              cbn [length] in Hp. rewrite <- Hp. f_equal. lia.
      * exists 1%nat. cbn [firstn fst snd length]. split; [lia|].
        split; [repeat constructor; exact Hr|].
        right. exists 0%nat, r. rewrite Nat.add_0_r.
        split; [reflexivity|]. split; [reflexivity | exact Hpost].
Qed.

Lemma send_each_all (chunks : list str) :
  (forall m, In m chunks -> exists t, markdownify api m = Ok t) ->
  (forall n r, exists j, post api n r = Ok j) ->
  forall made : nat,
  exists sent,
    send_each api made chunks chat tok = (sent, Ok tt) /\
    Forall2 (sends api chat tok) chunks sent.
Proof.
  intros Hmd Hpost. induction chunks as [|m chunks IH]; intro made.
  - exists []. split; [reflexivity | constructor].
  - cbn [send_each].
    destruct (send_to_telegram_chunk made m) as [(e & Hm & _) | (r & Hr & E)].
    + destruct (Hmd m (or_introl eq_refl)) as (t & Ht). congruence.
    + rewrite E. destruct (Hpost made r) as (j & Hj). rewrite Hj.
      destruct (IH (fun m' H => Hmd m' (or_intror H)) (made + length [r])%nat)
        as (sent & Hsent & Hall).
      rewrite Hsent. exists (r :: sent). split; [reflexivity|].
      constructor; assumption.
Qed.

End Telegram.

(** X4. When the escaper and Telegram accept everything,
    [send_long_message_to_telegram] returns normally after one request per
    chunk of [split_string_by_lines(message)] (limit 4096), in the order of
    the chunks; each request goes to the [sendMessage] address of the token
    with the chat id, the parse mode [MarkdownV2], no [reply_markup], and as
    text the one-element tuple of the escaped chunk; and the chunks sent,
    concatenated before escaping, are the message. *)
Theorem send_long_message_to_telegram_all {M J : Type}
        (api : telegram_api M J) (message : str) (chat : Z) (tok : telegram) :
  (forall m, exists t, markdownify api m = Ok t) ->
  (forall n r, exists j, post api n r = Ok j) ->
  exists sent,
    send_long_message_to_telegram api message chat tok = (sent, Ok tt) /\
    Forall2 (sends api chat tok) (split_string_by_lines message 4096) sent /\
    concat (split_string_by_lines message 4096) = message.
Proof.
  intros Hmd Hpost. unfold send_long_message_to_telegram.
  destruct (send_each_all api chat tok (split_string_by_lines message 4096)
              (fun m _ => Hmd m) Hpost 0%nat) as (sent & Hsent & Hall).
  exists sent. split; [exact Hsent|]. split; [exact Hall|].
  apply concat_split_string_by_lines.
Qed.

Lemma send_long_message_to_telegram_all_witness :
  exists sent,
    send_long_message_to_telegram accepting_api hello_world 42
                                  {| token := of_string "t" |}
    = (sent, Ok tt) /\
    Forall2 (sends accepting_api 42 {| token := of_string "t" |})
            (split_string_by_lines hello_world 4096) sent /\
    concat (split_string_by_lines hello_world 4096) = hello_world.
Proof.
  apply (send_long_message_to_telegram_all accepting_api hello_world 42
           {| token := of_string "t" |}).
  - intro m. exists m. reflexivity.
  - intros n r. exists 0. reflexivity.
Defined.


(** X6. [send_long_message_to_telegram] makes no more requests than the
    message has lines, hence than it has characters: none for the empty
    message. *)
Theorem send_long_message_to_telegram_requests {M J : Type}
        (api : telegram_api M J) (message : str) (chat : Z) (tok : telegram) :
  (length (fst (send_long_message_to_telegram api message chat tok))
   <= length (splitlines message) <= length message)%nat /\
  send_long_message_to_telegram api [] chat tok = ([], Ok tt).
Proof.
  split; [|reflexivity].
  unfold send_long_message_to_telegram.
  destruct (send_each_prefix api chat tok (split_string_by_lines message 4096)
              0%nat) as (n & Hn & Hsent & _).
  apply Forall2_length in Hsent. rewrite length_firstn in Hsent.
  pose proof (length_split_string_by_lines_le message 4096) as [H1 H2].
  split; [lia | exact H2].
Qed.

(** ** Fetching the content of a link *)



(** X9. When the page itself yields a text of 100 characters or more,
    [get_content_from_link] returns [None]: the text is dropped, as the
    function has no [return] on that path. *)
Theorem get_content_from_link_drops_long_text (w : web) (link content : str) :
  _get_content_from_link_trafilatura w link = Some content ->
  100 <= len content ->
  get_content_from_link w link = None.
Proof.
  intros Hc Hlen. unfold get_content_from_link. rewrite Hc.
  assert (Ht : truthy content = true).
  { destruct content; [cbn in Hlen; lia | reflexivity]. }
  rewrite Ht, (proj2 (Z.ltb_ge (len content) 100)) by exact Hlen.
  reflexivity.
Qed.

Lemma get_content_from_link_drops_long_text_witness :
  _get_content_from_link_trafilatura page_web hello_world
  = Some (repeat chr_x 100) /\
  100 <= len (repeat chr_x 100) /\
  get_content_from_link page_web hello_world = None.
Proof.
  split; [reflexivity|]. split; [discriminate|].
  apply (get_content_from_link_drops_long_text page_web hello_world
           (repeat chr_x 100)); [reflexivity | discriminate].
Defined.

(** X10. Whatever [get_content_from_link] returns other than [None] is what
    [_get_content_from_link_tabily] returns for the link, and then the page
    itself gave no text or one shorter than 100 characters: the text taken
    from the page is never the result. *)
Theorem get_content_from_link_is_tavily (w : web) (link t : str) :
  get_content_from_link w link = Some t ->
  _get_content_from_link_tabily w link = Some t /\
  (forall content,
      _get_content_from_link_trafilatura w link = Some content ->
      len content < 100).
Proof.
  unfold get_content_from_link.
  destruct (_get_content_from_link_trafilatura w link) as [c|] eqn:Hc.
  - destruct (negb (truthy c) || (len c <? 100))%bool eqn:E; [|discriminate].
    intro H. split; [exact H|]. intros content Hcontent.
    inversion Hcontent; subst.
    apply orb_true_iff in E. destruct E as [E | E].
    + apply negb_true_iff, truthy_false_iff in E. subst. reflexivity.
    + apply Z.ltb_lt; exact E.
  - intro H. split; [exact H | discriminate].
Qed.

Lemma get_content_from_link_is_tavily_witness :
  get_content_from_link tavily_web hello_world = Some three_lines /\
  _get_content_from_link_tabily tavily_web hello_world = Some three_lines /\
  (forall content,
      _get_content_from_link_trafilatura tavily_web hello_world = Some content ->
      len content < 100).
Proof.
  split; [reflexivity|].
  apply (get_content_from_link_is_tavily tavily_web hello_world three_lines).
  reflexivity.
Defined.

(** ** Where a blog's description comes from *)

(** X11. In [tech_blog_summarize.main] the test
    [blog_name == "Google Research Blog" or "Google DeepMind Blog"] is true
    for every blog name, so [entry.description] is never used: the
    description is [entry.content[0]['value']] for "Netflix Tech Blog" and
    the result of [get_content_from_link(entry.link)] for every other
    blog. *)
Theorem description_of_never_entry_description (blog_name : str) :
  (blog_name = of_string "Netflix Tech Blog" /\
   description_of blog_name = EntryContentValue)
  \/ (blog_name <> of_string "Netflix Tech Blog" /\
      description_of blog_name = ContentFromLink).
Proof.
  unfold description_of, str_eqb.
  destruct (list_eq_dec N.eq_dec blog_name (of_string "Netflix Tech Blog")).
  - left. split; [assumption | reflexivity].
  - right. split; [assumption|].
    destruct (list_eq_dec N.eq_dec blog_name (of_string "Google Research Blog"));
      reflexivity.
Qed.

(** ** The grades of the pollutants *)

Lemma lt_int_mono (v w : number) (n : Z) :
  number_le v w -> lt_int w n = true -> lt_int v n = true.
Proof.
  destruct v as [p| | |], w as [q| | |]; cbn [number_le lt_int];
    try tauto; try discriminate; try reflexivity.
  intros Hpq Hq. apply negb_true_iff in Hq. apply negb_true_iff.
  destruct (Qle_bool (inject_Z n) p) eqn:Hp; [|reflexivity].
  apply Qle_bool_iff in Hp.
  assert (Hn : Qle_bool (inject_Z n) q = true).
  { apply Qle_bool_iff. apply (Qle_trans _ p); assumption. }
  congruence.
Qed.

Lemma lt_int_nonpositive (q : Q) (n : Z) :
  (q <= 0)%Q -> 0 < n -> lt_int (Finite q) n = true.
Proof.
  intros Hq Hn. cbn [lt_int]. apply negb_true_iff.
  destruct (Qle_bool (inject_Z n) q) eqn:E; [|reflexivity].
  apply Qle_bool_iff in E.
  pose proof (Qle_trans _ _ _ E Hq) as H.
  unfold Qle in H. cbn in H. lia.
Qed.

Lemma grade_range (t1 t2 t3 t4 : Z) (v : number) :
  1 <= grade t1 t2 t3 t4 v <= 5.
Proof.
  unfold grade.
  destruct (lt_int v t1), (lt_int v t2), (lt_int v t3), (lt_int v t4); lia.
Qed.

Lemma grade_mono (t1 t2 t3 t4 : Z) (v w : number) :
  number_le v w -> grade t1 t2 t3 t4 v <= grade t1 t2 t3 t4 w.
Proof.
  intro Hle.
  pose proof (lt_int_mono v w t1 Hle) as H1.
  pose proof (lt_int_mono v w t2 Hle) as H2.
  pose proof (lt_int_mono v w t3 Hle) as H3.
  pose proof (lt_int_mono v w t4 Hle) as H4.
  unfold grade.
  destruct (lt_int w t1), (lt_int w t2), (lt_int w t3), (lt_int w t4);
    repeat match goal with
           | H : true = true -> _ |- _ => specialize (H eq_refl); rewrite H
           end;
    destruct (lt_int v t1), (lt_int v t2), (lt_int v t3), (lt_int v t4); lia.
Qed.

Lemma graded_by_chain (t1 t2 t3 t4 : Z) (v : number) :
  (if lt_int v t1 then getitem POLLUTANT_LEVEL_MAP 1
   else if lt_int v t2 then getitem POLLUTANT_LEVEL_MAP 2
   else if lt_int v t3 then getitem POLLUTANT_LEVEL_MAP 3
   else if lt_int v t4 then getitem POLLUTANT_LEVEL_MAP 4
   else getitem POLLUTANT_LEVEL_MAP 5)
  = getitem POLLUTANT_LEVEL_MAP (grade t1 t2 t3 t4 v).
Proof.
  unfold grade.
  destruct (lt_int v t1), (lt_int v t2), (lt_int v t3), (lt_int v t4);
    reflexivity.
Qed.

Lemma level_functions_graded :
  Forall (fun f => exists t1 t2 t3 t4, graded_by f t1 t2 t3 t4) level_functions.
Proof.
  unfold level_functions.
  repeat constructor.
  - exists 10, 25, 50, 75. split; [reflexivity | intro v; apply graded_by_chain].
  - exists 20, 50, 100, 200. split; [reflexivity | intro v; apply graded_by_chain].
  - exists 20, 80, 250, 350. split; [reflexivity | intro v; apply graded_by_chain].
  - exists 40, 70, 150, 200. split; [reflexivity | intro v; apply graded_by_chain].
  - exists 60, 100, 140, 180. split; [reflexivity | intro v; apply graded_by_chain].
  - exists 4400, 9400, 12400, 15400.
    split; [reflexivity | intro v; apply graded_by_chain].
Qed.

Lemma getitem_levels (k : Z) :
  1 <= k <= 5 -> exists label, getitem POLLUTANT_LEVEL_MAP k = Ok label.
Proof.
  intro Hk.
  assert (H : k = 1 \/ k = 2 \/ k = 3 \/ k = 4 \/ k = 5) by lia.
  destruct H as [-> | [-> | [-> | [-> | ->]]]]; eexists; reflexivity.
Qed.

(** X12. The six grading functions ([get_pm2_5_level], [get_pm10_level],
    [get_so2_level], [get_no2_level], [get_o3_level], [get_co_level]) never
    raise [KeyError] and are monotone: for two values that are not [nan], the
    smaller one gets the label of a key of [POLLUTANT_LEVEL_MAP] between 1
    and 5 that is no greater than the key of the larger one; and the five
    labels differ, so a label names its key. *)
Theorem pollutant_levels_monotone :
  Forall (fun f : number -> result str =>
            forall v w, number_le v w ->
            exists i j label_v label_w,
              1 <= i /\ i <= j /\ j <= 5 /\
              getitem POLLUTANT_LEVEL_MAP i = Ok label_v /\
              getitem POLLUTANT_LEVEL_MAP j = Ok label_w /\
              f v = Ok label_v /\ f w = Ok label_w)
         level_functions /\
  NoDup (map snd POLLUTANT_LEVEL_MAP).
Proof.
  split.
  - eapply Forall_impl; [|exact level_functions_graded].
    intros f (t1 & t2 & t3 & t4 & _ & Hf) v w Hle.
    pose proof (grade_range t1 t2 t3 t4 v) as Hv.
    pose proof (grade_range t1 t2 t3 t4 w) as Hw.
    pose proof (grade_mono t1 t2 t3 t4 v w Hle) as Hvw.
    destruct (getitem_levels _ Hv) as (lv & Hlv).
    destruct (getitem_levels _ Hw) as (lw & Hlw).
    exists (grade t1 t2 t3 t4 v), (grade t1 t2 t3 t4 w), lv, lw.
    rewrite !Hf. repeat split; try assumption; lia.
  - cbn. repeat constructor; cbn; intuition discriminate.
Qed.

Lemma pollutant_levels_monotone_witness :
  number_le (Finite (12 # 1)) (Finite (151 # 2)) /\
  exists i j label_v label_w,
    1 <= i /\ i <= j /\ j <= 5 /\
    getitem POLLUTANT_LEVEL_MAP i = Ok label_v /\
    getitem POLLUTANT_LEVEL_MAP j = Ok label_w /\
    get_pm2_5_level (Finite (12 # 1)) = Ok label_v /\
    get_pm2_5_level (Finite (151 # 2)) = Ok label_w.
Proof.
  split; [discriminate|].
  apply (Forall_inv (proj1 pollutant_levels_monotone)
           (Finite (12 # 1)) (Finite (151 # 2))).
  discriminate.
Defined.

(** X13. In all six grading functions a value that is [nan] or positive
    infinity gets the label of the key 5, the worst grade, as no comparison
    with it is true; negative infinity and every value that is zero or
    negative, such as the [0.0] that stands for a missing measurement, get
    the label of the key 1, the best grade. *)
Theorem pollutant_levels_edges :
  Forall (fun f : number -> result str =>
            f NaN = getitem POLLUTANT_LEVEL_MAP 5 /\
            f PosInf = getitem POLLUTANT_LEVEL_MAP 5 /\
            f NegInf = getitem POLLUTANT_LEVEL_MAP 1 /\
            forall q, (q <= 0)%Q ->
                      f (Finite q) = getitem POLLUTANT_LEVEL_MAP 1)
         level_functions.
Proof.
  eapply Forall_impl; [|exact level_functions_graded].
  intros f (t1 & t2 & t3 & t4 & Ht1 & Hf).
  rewrite !Hf. repeat split.
  intros q Hq. rewrite Hf. unfold grade.
  rewrite (lt_int_nonpositive q t1 Hq Ht1). reflexivity.
Qed.

Lemma pollutant_levels_edges_witness :
  (0 <= 0)%Q /\
  get_co_level (Finite 0) = Ok [51339; 51020]%N /\
  get_co_level NaN = Ok [47588; 50864; 32; 45208; 49256]%N.
Proof.
  pose proof (Forall_inv
                (Forall_inv_tail (Forall_inv_tail (Forall_inv_tail
                  (Forall_inv_tail (Forall_inv_tail pollutant_levels_edges))))))
    as (Hnan & _ & _ & Hq).
  split; [discriminate|]. split.
  - rewrite (Hq 0%Q); [reflexivity | discriminate].
  - rewrite Hnan. reflexivity.
Defined.
